(** * emg_receiver.listener: a shallow embedding and its properties

    The development follows [src/emg_receiver/listener.py]:

    - the helpers [clamp01], [to_float], [to_bool], [parse_packet] and
      [atomic_write_json] are translated function by function;
    - the body of the [while True] loop of [main] is the function
      [iteration], driven by one [event] per turn of the loop;
    - the pieces of the Python runtime the helpers call ([bytes.decode],
      [json.loads], [float], [repr], [json.dump], [csv.DictWriter], files)
      are modelled in the first half of the file, each with the CPython
      behaviour it stands for written next to it.

    Numbers are as Python has them: [int] is [Z], [float] is the binary64
    type [PrimFloat.float], text is a list of code points and [bytes] is a
    list of [Byte.byte]. *)

From Stdlib Require Import ZArith NArith List Bool Lia.
From Stdlib Require Import Strings.String Strings.Ascii Strings.Byte.
From Stdlib Require Import Floats.
Import ListNotations.

Set Warnings "-inexact-float,-register-all".
Local Open Scope Z_scope.

(* ================================================================== *)
(** * Exceptions and results *)

(** The exception classes the listener can meet.  An [OSError] raised for
    the errno [ETIMEDOUT] is an instance of the subclass [TimeoutError]
    (PEP 3151); every other errno is kept in [OSError].  [IOError] is
    another name of [OSError]. *)
Inductive exn : Type :=
| UnicodeDecodeError
| JSONDecodeError
| KeyError
| TypeError
| ValueError
| OverflowError
| OSError (errno : Z)
| TimeoutError
| LegacySocketTimeout
| KeyboardInterrupt.

(** [isinstance(e, Exception)]: everything here but [KeyboardInterrupt],
    which derives from [BaseException] only. *)
Definition is_Exception (e : exn) : bool :=
  match e with
  | KeyboardInterrupt => false
  | _ => true
  end.

(** [isinstance(e, OSError)], that is, [isinstance(e, IOError)]. *)
Definition is_OSError (e : exn) : bool :=
  match e with
  | OSError _ | TimeoutError | LegacySocketTimeout => true
  | _ => false
  end.

Inductive result (A : Type) : Type :=
| Ok (a : A)
| Raise (e : exn).
Arguments Ok {A} a.
Arguments Raise {A} e.

Definition bind {A B : Type} (r : result A) (k : A -> result B) : result B :=
  match r with
  | Ok a => k a
  | Raise e => Raise e
  end.

Notation "x <- r ;; k" := (bind r (fun x => k))
  (at level 61, r at next level, right associativity).

Definition is_ok {A : Type} (r : result A) : bool :=
  match r with Ok _ => true | Raise _ => false end.

(* ================================================================== *)
(** * Text *)

(** A Python [str] is a sequence of code points. *)
Definition char : Type := N.
Definition str : Type := list char.

Fixpoint str_of (s : string) : str :=
  match s with
  | EmptyString => []
  | String c s' => N_of_ascii c :: str_of s'
  end.

(** Literals that hold a double quote are written with an apostrophe in
    its place. *)
Definition dq (s : str) : str :=
  map (fun c => if (c =? 39)%N then 34%N else c) s.

Fixpoint str_eqb (a b : str) : bool :=
  match a, b with
  | [], [] => true
  | x :: a', y :: b' => (x =? y)%N && str_eqb a' b'
  | _, _ => false
  end.

Definition in_range (lo hi c : N) : bool := ((lo <=? c) && (c <=? hi))%N.

(** [str.isspace] on one character, the test [str.strip()] applies:
    the ASCII table of CPython below 128, the Unicode property above. *)
Definition is_space (c : char) : bool :=
  in_range 0x09 0x0D c || in_range 0x1C 0x20 c
  || (c =? 0x85)%N || (c =? 0xA0)%N || (c =? 0x1680)%N
  || in_range 0x2000 0x200A c
  || (c =? 0x2028)%N || (c =? 0x2029)%N || (c =? 0x202F)%N
  || (c =? 0x205F)%N || (c =? 0x3000)%N.

Fixpoint lstrip (s : str) : str :=
  match s with
  | [] => []
  | c :: s' => if is_space c then lstrip s' else s
  end.

Definition rstrip (s : str) : str := rev (lstrip (rev s)).

(** [s.strip()] *)
Definition strip (s : str) : str := rstrip (lstrip s).

(** [str.lower] on one character.  The ASCII and Latin-1 capitals are
    mapped as Unicode maps them; so are the two characters outside ASCII
    whose lower case holds an ASCII letter, the Kelvin sign (to k) and the
    dotted capital I (to i followed by a combining dot).  Every other
    character outside ASCII is left as it is: Unicode maps it to
    characters outside ASCII again, which no comparison with an ASCII
    literal can tell from the character itself. *)
Definition lower_char (c : char) : str :=
  if in_range 65 90 c then [(c + 32)%N]
  else if in_range 0xC0 0xDE c && negb (c =? 0xD7)%N then [(c + 32)%N]
  else if (c =? 0x212A)%N then [107%N]
  else if (c =? 0x0130)%N then [105%N; 0x0307%N]
  else [c].

(** [s.lower()] *)
Definition lower (s : str) : str := flat_map lower_char s.

Definition is_digit (c : char) : bool := in_range 48 57 c.

Definition digit_val (c : char) : Z := Z.of_N c - 48.

(** Value of a string of decimal digits, most significant first. *)
Definition Z_of_digits (ds : str) : Z :=
  fold_left (fun acc c => 10 * acc + digit_val c) ds 0.

(** The longest prefix of digits and what follows it. *)
Fixpoint span_digits (s : str) : str * str :=
  match s with
  | c :: s' =>
      if is_digit c
      then let (ds, rest) := span_digits s' in (c :: ds, rest)
      else ([], s)
  | [] => ([], [])
  end.

(** Decimal digits of a natural number; [0] is the single digit 0. *)
Definition digits_of_Z (n : Z) : str :=
  match n with
  | Zpos p =>
      (fix go (fuel : nat) (n : Z) (acc : str) {struct fuel} : str :=
         match fuel with
         | O => acc
         | S fuel' =>
             if n =? 0 then acc
             else go fuel' (n / 10) (N.of_nat (Z.to_nat (48 + n mod 10)) :: acc)
         end) (S (Pos.size_nat p)) (Zpos p) []
  | _ => [48%N]
  end.

(* ================================================================== *)
(** * Floats *)

Definition two53 : Z := 2 ^ 53.
Definition two52 : Z := 2 ^ 52.

(** The binary64 value nearest to the rational [n / d] ([n], [d] positive),
    ties to even, as a mantissa and an exponent; [None] when the rounded
    value is beyond the largest finite float. *)
Definition round_ratio (n d : Z) : option (Z * Z) :=
  let e0 := Z.log2 n - Z.log2 d - 52 in
  let q0 := if 0 <=? e0 then n / (d * 2 ^ e0) else (n * 2 ^ (- e0)) / d in
  let e1 := if q0 <? two52 then e0 - 1 else e0 in
  let e := Z.max e1 (-1074) in
  let num := if 0 <=? e then n else n * 2 ^ (- e) in
  let den := if 0 <=? e then d * 2 ^ e else d in
  let q := num / den in
  let r := num mod den in
  let up := (den <? 2 * r) || ((den =? 2 * r) && Z.odd q) in
  let m := if up then q + 1 else q in
  if (971 <? e) || ((971 =? e) && (two53 <=? m)) then None
  else Some (m, e).

Definition float_of_parts (neg : bool) (m e : Z) : float :=
  match m with
  | Zpos p => SF2Prim (S754_finite neg p e)
  | _ => SF2Prim (S754_zero neg)
  end.

(** Nearest float to [(-1)^neg * n / d]; infinity on overflow. *)
Definition float_of_ratio (neg : bool) (n d : Z) : float :=
  if n <=? 0 then SF2Prim (S754_zero neg)
  else match round_ratio n d with
       | Some (m, e) => float_of_parts neg m e
       | None => SF2Prim (S754_infinity neg)
       end.

(** [float(n)] for an [int]: the nearest float, [OverflowError] when the
    integer is too large. *)
Definition float_of_int (n : Z) : result float :=
  if n =? 0 then Ok 0%float
  else match round_ratio (Z.abs n) 1 with
       | Some (m, e) => Ok (float_of_parts (n <? 0) m e)
       | None => Raise OverflowError
       end.

(** [(-1)^neg * m * 10^e10] rounded to a float. *)
Definition float_of_decimal (neg : bool) (m e10 : Z) : float :=
  if 0 <=? e10 then float_of_ratio neg (m * 10 ^ e10) 1
  else float_of_ratio neg m (10 ^ (- e10)).

(** ** [float(s)] for a [str]

    CPython strips white space, checks and removes underscores (allowed
    only between two digits) and hands the rest to its decimal parser,
    which must consume all of it.  Digits are the ASCII digits; decimal
    digits of other scripts, which CPython first maps to ASCII through its
    Unicode database, are outside this model. *)

Definition ascii_lower_char (c : char) : char :=
  if in_range 65 90 c then (c + 32)%N else c.

Fixpoint strip_underscores (prev : char) (s : str) : option str :=
  match s with
  | [] => if (prev =? 95)%N then None else Some []
  | c :: s' =>
      if (c =? 95)%N then
        if is_digit prev then strip_underscores c s' else None
      else if (prev =? 95)%N && negb (is_digit c) then None
      else option_map (cons c) (strip_underscores c s')
  end.

(** An optional sign. *)
Definition split_sign (s : str) : bool * str :=
  match s with
  | c :: s' =>
      if (c =? 45)%N then (true, s')
      else if (c =? 43)%N then (false, s')
      else (false, s)
  | [] => (false, [])
  end.

(** The exponent part, which is either absent or [e], a sign and digits
    up to the end of the text. *)
Definition parse_exponent (s : str) : option Z :=
  match s with
  | [] => Some 0
  | c :: s' =>
      if (ascii_lower_char c =? 101)%N then
        let (eneg, s2) := split_sign s' in
        let (ed, rest) := span_digits s2 in
        match ed, rest with
        | _ :: _, [] => Some (if eneg then - Z_of_digits ed else Z_of_digits ed)
        | _, _ => None
        end
      else None
  end.

Definition parse_decimal (neg : bool) (s : str) : option float :=
  let (ip, r1) := span_digits s in
  let (fp, r2) :=
    match r1 with
    | c :: r => if (c =? 46)%N then span_digits r else ([], r1)
    | [] => ([], [])
    end in
  match (ip ++ fp)%list with
  | [] => None
  | ds =>
      match parse_exponent r2 with
      | Some e => Some (float_of_decimal neg (Z_of_digits ds)
                          (e - Z.of_nat (List.length fp)))
      | None => None
      end
  end.

Definition parse_float (s : str) : option float :=
  let (neg, body) := split_sign s in
  let word := map ascii_lower_char body in
  if str_eqb word (str_of "inf") || str_eqb word (str_of "infinity")
  then Some (if neg then neg_infinity else infinity)
  else if str_eqb word (str_of "nan") then Some nan
  else parse_decimal neg body.

(** [float(s)] *)
Definition float_of_str (s : str) : result float :=
  match strip_underscores 0%N (strip s) with
  | Some t =>
      match parse_float t with
      | Some f => Ok f
      | None => Raise ValueError
      end
  | None => Raise ValueError
  end.

(** ** [repr(x)] for a [float]

    The shortest string of digits that reads back as [x]; when two
    strings of that length do, the one nearer to [x]. *)

(** The [k] with [10^k <= n / d < 10^(k+1)]. *)
Definition floor_log10 (n d : Z) : Z :=
  let est := ((Z.log2 n - Z.log2 d) * 30103) / 100000 in
  let reaches k :=
    if 0 <=? k then d * 10 ^ k <=? n else d <=? n * 10 ^ (- k) in
  fold_left (fun acc k => if reaches k then k else acc)
            [est - 2; est - 1; est; est + 1; est + 2] (est - 3).

(** [x = n / d] scaled to [p] significant digits: the integer below it and
    whether the integer above it is nearer ([Lt]: below is nearer). *)
Definition scaled (n d k : Z) (p : Z) : Z * comparison :=
  let s := p - 1 - k in
  let num := if 0 <=? s then n * 10 ^ s else n in
  let den := if 0 <=? s then d else d * 10 ^ (- s) in
  (num / den, 2 * (num mod den) ?= den).

Fixpoint shortest (x : float) (n d k : Z) (ps : list Z) : Z * Z :=
  match ps with
  | [] => (0, 0)
  | p :: ps' =>
      let '(lo, side) := scaled n d k p in
      let e10 := k - p + 1 in
      let lo_ok := PrimFloat.eqb (float_of_decimal false lo e10) x in
      let hi_ok := PrimFloat.eqb (float_of_decimal false (lo + 1) e10) x in
      match lo_ok, hi_ok with
      | true, true =>
          match side with
          | Lt => (lo, e10)
          | Gt => (lo + 1, e10)
          | Eq => (if Z.even lo then lo else lo + 1, e10)
          end
      | true, false => (lo, e10)
      | false, true => (lo + 1, e10)
      | false, false => shortest x n d k ps'
      end
  end.

Fixpoint drop_zeros_rev (r : str) : str :=
  match r with
  | c :: r' => if (c =? 48)%N then drop_zeros_rev r' else r
  | [] => []
  end.

(** The digits of the shortest representation and the position of the
    decimal point relative to their start. *)
Definition short_digits (m e : Z) : str * Z :=
  let n := if 0 <=? e then m * 2 ^ e else m in
  let d := if 0 <=? e then 1 else 2 ^ (- e) in
  let k := floor_log10 n d in
  let x := float_of_parts false m e in
  let '(c, e10) := shortest x n d k
                     [1; 2; 3; 4; 5; 6; 7; 8; 9; 10; 11; 12; 13; 14; 15; 16; 17] in
  let ds := digits_of_Z c in
  (rev (drop_zeros_rev (rev ds)), e10 + Z.of_nat (List.length ds)).

Definition zeros (n : Z) : str := repeat 48%N (Z.to_nat n).

(** Exponent as [repr] prints it: a sign and at least two digits. *)
Definition repr_exponent (e : Z) : str :=
  let ds := digits_of_Z (Z.abs e) in
  ((if e <? 0 then 45%N else 43%N)
     :: (if Z.abs e <? 10 then 48%N :: ds else ds)).

Definition repr_finite (ds : str) (decpt : Z) : str :=
  if (decpt <=? -4) || (16 <? decpt) then
    match ds with
    | [] => []
    | d1 :: [] => d1 :: 101%N :: repr_exponent (decpt - 1)
    | d1 :: tl => d1 :: 46%N :: tl ++ 101%N :: repr_exponent (decpt - 1)
    end
  else if decpt <=? 0 then
    48%N :: 46%N :: zeros (- decpt) ++ ds
  else if decpt <? Z.of_nat (List.length ds) then
    firstn (Z.to_nat decpt) ds ++ 46%N :: skipn (Z.to_nat decpt) ds
  else
    ds ++ zeros (decpt - Z.of_nat (List.length ds)) ++ [46%N; 48%N].

Definition minus_if (neg : bool) (s : str) : str :=
  if neg then 45%N :: s else s.

(** [repr(x)], which is also [str(x)]. *)
Definition float_repr (x : float) : str :=
  match Prim2SF x with
  | S754_nan => str_of "nan"
  | S754_infinity neg => minus_if neg (str_of "inf")
  | S754_zero neg => minus_if neg (str_of "0.0")
  | S754_finite neg m e =>
      let (ds, decpt) := short_digits (Zpos m) e in
      minus_if neg (repr_finite ds decpt)
  end.

(* ================================================================== *)
(** * UTF-8 *)

Definition is_cont (b : N) : bool := in_range 0x80 0xBF b.

(** The payload bits of a continuation byte. *)
Definition low6 (b : N) : N := (b - 0x80)%N.

(** Strict UTF-8 as [bytes.decode("utf-8")] applies it: shortest forms
    only, no surrogates, nothing above U+10FFFF. *)
Fixpoint utf8_decode (bs : list N) : option str :=
  match bs with
  | [] => Some []
  | b1 :: r1 =>
      if (b1 <? 0x80)%N then option_map (cons b1) (utf8_decode r1)
      else if in_range 0xC2 0xDF b1 then
        match r1 with
        | b2 :: r2 =>
            if is_cont b2
            then option_map (cons ((b1 - 0xC0) * 64 + low6 b2)%N)
                            (utf8_decode r2)
            else None
        | _ => None
        end
      else if in_range 0xE0 0xEF b1 then
        match r1 with
        | b2 :: b3 :: r3 =>
            if in_range (if (b1 =? 0xE0)%N then 0xA0 else 0x80)
                        (if (b1 =? 0xED)%N then 0x9F else 0xBF) b2
               && is_cont b3
            then option_map
                   (cons (((b1 - 0xE0) * 64 + low6 b2) * 64 + low6 b3)%N)
                   (utf8_decode r3)
            else None
        | _ => None
        end
      else if in_range 0xF0 0xF4 b1 then
        match r1 with
        | b2 :: b3 :: b4 :: r4 =>
            if in_range (if (b1 =? 0xF0)%N then 0x90 else 0x80)
                        (if (b1 =? 0xF4)%N then 0x8F else 0xBF) b2
               && is_cont b3 && is_cont b4
            then option_map
                   (cons ((((b1 - 0xF0) * 64 + low6 b2) * 64 + low6 b3) * 64
                          + low6 b4)%N)
                   (utf8_decode r4)
            else None
        | _ => None
        end
      else None
  end.

(** [raw.decode("utf-8")] *)
Definition decode_utf8 (raw : list byte) : result str :=
  match utf8_decode (map Byte.to_N raw) with
  | Some s => Ok s
  | None => Raise UnicodeDecodeError
  end.

Definition byte_of_N (n : N) : byte :=
  match Byte.of_N n with
  | Some b => b
  | None => x00
  end.

Definition utf8_encode_char (c : char) : list byte :=
  map byte_of_N
    (if (c <? 0x80)%N then [c]
     else if (c <? 0x800)%N then [0xC0 + c / 64; 0x80 + c mod 64]
     else if (c <? 0x10000)%N then
       [0xE0 + c / 4096; 0x80 + (c / 64) mod 64; 0x80 + c mod 64]
     else
       [0xF0 + c / 262144; 0x80 + (c / 4096) mod 64;
        0x80 + (c / 64) mod 64; 0x80 + c mod 64])%N.

(** What a text file opened with [encoding="utf-8"] stores for [s].  The
    listener writes ASCII only. *)
Definition encode_utf8 (s : str) : list byte := flat_map utf8_encode_char s.

(* ================================================================== *)
(** * JSON *)

(** The values [json.loads] builds.  A [dict] keeps its keys in insertion
    order, each key once. *)
Inductive pyval : Type :=
| PyNone
| PyBool (b : bool)
| PyInt (n : Z)
| PyFloat (f : float)
| PyStr (s : str)
| PyList (items : list pyval)
| PyDict (d : list (str * pyval)).

Definition dict : Type := list (str * pyval).

Fixpoint dict_get (k : str) (d : dict) : option pyval :=
  match d with
  | [] => None
  | (k', v) :: d' => if str_eqb k k' then Some v else dict_get k d'
  end.

(** [d[k] = v]: a key already present keeps its place. *)
Fixpoint dict_set (k : str) (v : pyval) (d : dict) : dict :=
  match d with
  | [] => [(k, v)]
  | (k', v') :: d' =>
      if str_eqb k k' then (k', v) :: d' else (k', v') :: dict_set k v d'
  end.

(** [msg[k]] for a string key [k]: a lookup in a [dict], a [KeyError]
    when the key is absent, a [TypeError] on every other value (lists and
    strings want integer indices, the rest cannot be subscripted). *)
Definition getitem (msg : pyval) (k : str) : result pyval :=
  match msg with
  | PyDict d =>
      match dict_get k d with
      | Some v => Ok v
      | None => Raise KeyError
      end
  | _ => Raise TypeError
  end.

(** ** Tokens *)

Inductive token : Type :=
| TLBrace | TRBrace | TLBracket | TRBracket | TColon | TComma
| TStr (s : str)
| TWord (w : str).

(** The scanner reads a string one character at a time; a character
    written as a [\uXXXX] escape is marked, for the pairing of
    surrogates. *)
Inductive lex_state : Type :=
| LIdle
| LWord (acc : str)
| LStr (acc : list (char * bool))
| LEsc (acc : list (char * bool))
| LHex (acc : list (char * bool)) (digs : list N).

Definition is_json_ws (c : char) : bool :=
  (c =? 32)%N || (c =? 9)%N || (c =? 10)%N || (c =? 13)%N.

(** Characters of numbers and of the literals. *)
Definition is_word_char (c : char) : bool :=
  in_range 48 57 c || in_range 65 90 c || in_range 97 122 c
  || (c =? 43)%N || (c =? 45)%N || (c =? 46)%N.

Definition punct (c : char) : option token :=
  if (c =? 123)%N then Some TLBrace
  else if (c =? 125)%N then Some TRBrace
  else if (c =? 91)%N then Some TLBracket
  else if (c =? 93)%N then Some TRBracket
  else if (c =? 58)%N then Some TColon
  else if (c =? 44)%N then Some TComma
  else None.

(** One character read outside any token: the token it makes, if it
    makes one alone, and the state after it. *)
Definition idle_step (c : char) : option (list token * lex_state) :=
  if is_json_ws c then Some ([], LIdle)
  else if (c =? 34)%N then Some ([], LStr [])
  else if is_word_char c then Some ([], LWord [c])
  else match punct c with
       | Some t => Some ([t], LIdle)
       | None => None
       end.

Definition unescape (c : char) : option char :=
  if (c =? 34)%N then Some 34%N
  else if (c =? 92)%N then Some 92%N
  else if (c =? 47)%N then Some 47%N
  else if (c =? 98)%N then Some 8%N
  else if (c =? 102)%N then Some 12%N
  else if (c =? 110)%N then Some 10%N
  else if (c =? 114)%N then Some 13%N
  else if (c =? 116)%N then Some 9%N
  else None.

Definition hex_val (c : char) : option N :=
  if in_range 48 57 c then Some (c - 48)%N
  else if in_range 65 70 c then Some (c - 55)%N
  else if in_range 97 102 c then Some (c - 87)%N
  else None.

(** A high surrogate escape followed at once by a low surrogate escape is
    one character. *)
Fixpoint join_surrogates (cs : list (char * bool)) : str :=
  match cs with
  | [] => []
  | (hi, true) :: ((lo, true) :: rest) as tl =>
      if in_range 0xD800 0xDBFF hi && in_range 0xDC00 0xDFFF lo
      then (0x10000 + (hi - 0xD800) * 1024 + (lo - 0xDC00))%N
             :: join_surrogates rest
      else hi :: join_surrogates tl
  | (c, _) :: tl => c :: join_surrogates tl
  end.

Definition emit (ts : list token) (r : option (list token)) :
  option (list token) :=
  option_map (app ts) r.

Fixpoint lex (st : lex_state) (s : str) : option (list token) :=
  match s with
  | [] =>
      match st with
      | LIdle => Some []
      | LWord acc => Some [TWord (rev acc)]
      | _ => None
      end
  | c :: s' =>
      match st with
      | LIdle =>
          match idle_step c with
          | Some (ts, st') => emit ts (lex st' s')
          | None => None
          end
      | LWord acc =>
          if is_word_char c then lex (LWord (c :: acc)) s'
          else match idle_step c with
               | Some (ts, st') => emit (TWord (rev acc) :: ts) (lex st' s')
               | None => None
               end
      | LStr acc =>
          if (c =? 34)%N
          then emit [TStr (join_surrogates (rev acc))] (lex LIdle s')
          else if (c =? 92)%N then lex (LEsc acc) s'
          else if (c <? 32)%N then None
          else lex (LStr ((c, false) :: acc)) s'
      | LEsc acc =>
          if (c =? 117)%N then lex (LHex acc []) s'
          else match unescape c with
               | Some c' => lex (LStr ((c', false) :: acc)) s'
               | None => None
               end
      | LHex acc digs =>
          match hex_val c with
          | Some h =>
              match digs with
              | [d3; d2; d1] =>
                  lex (LStr ((((d1 * 16 + d2) * 16 + d3) * 16 + h, true)%N
                               :: acc)) s'
              | _ => lex (LHex acc (h :: digs)) s'
              end
          | None => None
          end
      end
  end.

(** ** Numbers and literals *)

(** A JSON number: an optional minus sign; an integer part that is the
    digit 0 alone or starts with another digit; optionally a point and
    one digit or more; optionally an exponent.  Without fraction and
    exponent it is an [int], else [float(text)]. *)
Definition json_number (w : str) : option pyval :=
  let (neg, r0) :=
    match w with
    | c :: r => if (c =? 45)%N then (true, r) else (false, w)
    | [] => (false, [])
    end in
  let (ip, r1) := span_digits r0 in
  let int_ok :=
    match ip with
    | [] => false
    | [d] => true
    | d :: _ => negb (d =? 48)%N
    end in
  let frac_ok :=
    match r1 with
    | c :: r =>
        if (c =? 46)%N
        then match span_digits r with
             | (_ :: _, r2) => Some (true, r2)
             | ([], _) => None
             end
        else Some (false, r1)
    | [] => Some (false, [])
    end in
  match int_ok, frac_ok with
  | true, Some (has_frac, r2) =>
      match r2, parse_exponent r2 with
      | _, None => None
      | [], Some _ =>
          if has_frac then option_map PyFloat (parse_float w)
          else Some (PyInt (if neg then - Z_of_digits ip else Z_of_digits ip))
      | _ :: _, Some _ => option_map PyFloat (parse_float w)
      end
  | _, _ => None
  end.

Definition atom (w : str) : option pyval :=
  if str_eqb w (str_of "null") then Some PyNone
  else if str_eqb w (str_of "true") then Some (PyBool true)
  else if str_eqb w (str_of "false") then Some (PyBool false)
  else if str_eqb w (str_of "NaN") then Some (PyFloat nan)
  else if str_eqb w (str_of "Infinity") then Some (PyFloat infinity)
  else if str_eqb w (str_of "-Infinity") then Some (PyFloat neg_infinity)
  else json_number w.

(** ** The parser: one pass over the tokens with a stack of the
    containers still open *)

Inductive frame : Type :=
| InList (items : list pyval)
| InDict (d : dict) (key : option str).

Inductive mode : Type :=
| MValue
| MFirstItem
| MFirstKey
| MKey
| MColon
| MAfter
| MEnd (v : pyval).

(** A finished value goes to the innermost open container. *)
Definition fill (v : pyval) (stack : list frame) : option (list frame * mode) :=
  match stack with
  | [] => Some ([], MEnd v)
  | InList items :: st => Some (InList (v :: items) :: st, MAfter)
  | InDict d (Some k) :: st => Some (InDict (dict_set k v d) None :: st, MAfter)
  | InDict _ None :: _ => None
  end.

Definition starts_value (m : mode) : bool :=
  match m with MValue | MFirstItem => true | _ => false end.

(** One token: the stack and the mode after it. *)
Definition parse_step (stack : list frame) (m : mode) (t : token) :
  option (list frame * mode) :=
  match t with
  | TWord w =>
      if starts_value m
      then match atom w with Some v => fill v stack | None => None end
      else None
  | TStr s =>
      match m, stack with
      | (MValue | MFirstItem), _ => fill (PyStr s) stack
      | (MFirstKey | MKey), InDict d None :: st =>
          Some (InDict d (Some s) :: st, MColon)
      | _, _ => None
      end
  | TLBracket =>
      if starts_value m then Some (InList [] :: stack, MFirstItem) else None
  | TLBrace =>
      if starts_value m then Some (InDict [] None :: stack, MFirstKey) else None
  | TRBracket =>
      match m, stack with
      | (MFirstItem | MAfter), InList items :: st => fill (PyList (rev items)) st
      | _, _ => None
      end
  | TRBrace =>
      match m, stack with
      | (MFirstKey | MAfter), InDict d None :: st => fill (PyDict d) st
      | _, _ => None
      end
  | TColon =>
      match m with
      | MColon => Some (stack, MValue)
      | _ => None
      end
  | TComma =>
      match m, stack with
      | MAfter, InList _ :: _ => Some (stack, MValue)
      | MAfter, InDict _ None :: _ => Some (stack, MKey)
      | _, _ => None
      end
  end.

Fixpoint parse (stack : list frame) (m : mode) (ts : list token) :
  option pyval :=
  match ts with
  | [] => match m with MEnd v => Some v | _ => None end
  | t :: ts' =>
      match parse_step stack m t with
      | Some (stack', m') => parse stack' m' ts'
      | None => None
      end
  end.

(** [json.loads(s)] for a [str]: one value, white space around it, and
    nothing else.  The limit CPython puts on the depth of nesting (a
    [RecursionError], an [Exception] like the others) is not modelled. *)
Definition json_loads (s : str) : result pyval :=
  match lex LIdle s with
  | Some ts =>
      match parse [] MValue ts with
      | Some v => Ok v
      | None => Raise JSONDecodeError
      end
  | None => Raise JSONDecodeError
  end.

(* ================================================================== *)
(** * Files *)

Definition path : Type := string.

(** The disk: what each path holds, if it exists. *)
Definition fs : Type := path -> option (list byte).

Definition fs_set (f : fs) (p : path) (c : option (list byte)) : fs :=
  fun q => if String.eqb q p then c else f q.

Definition no_files : fs := fun _ => None.

(** The two files the listener keeps open: the log ([csv_file] in [main])
    and the temporary file ([f] in [atomic_write_json]). *)
Inductive handle : Type := CsvFile | TmpFile.

(** A buffered text file open for writing: its path and what was written
    but has not reached the disk. *)
Definition open_file : Type := (path * list byte)%type.

Record world : Type := mkWorld {
  files : fs;
  csv_file : option open_file;
  tmp_file : option open_file
}.

Definition get_handle (w : world) (h : handle) : option open_file :=
  match h with
  | CsvFile => csv_file w
  | TmpFile => tmp_file w
  end.

Definition set_handle (w : world) (h : handle) (o : option open_file) : world :=
  match h with
  | CsvFile => mkWorld (files w) o (tmp_file w)
  | TmpFile => mkWorld (files w) (csv_file w) o
  end.

Definition set_files (w : world) (f : fs) : world :=
  mkWorld f (csv_file w) (tmp_file w).

(** The primitives through which the listener touches the disk. *)
Inductive instr : Type :=
| OpenAppend (h : handle) (p : path)
| OpenWrite (h : handle) (p : path)
| Write (h : handle) (s : str)
| Flush (h : handle)
| Close (h : handle)
| Replace (src dst : path).

Definition ENOENT : Z := 2.

(** The buffer of [h] goes to the end of its file. *)
Definition flush_handle (w : world) (h : handle) : result world :=
  match get_handle w h with
  | Some (p, buf) =>
      let old := match files w p with Some c => c | None => [] end in
      Ok (set_handle (set_files w (fs_set (files w) p (Some (old ++ buf))))
                     h (Some (p, [])))
  | None => Raise ValueError
  end.

Definition step_instr (w : world) (i : instr) : result world :=
  match i with
  | OpenAppend h p =>
      let f := match files w p with
               | Some _ => files w
               | None => fs_set (files w) p (Some [])
               end in
      Ok (set_handle (set_files w f) h (Some (p, [])))
  | OpenWrite h p =>
      Ok (set_handle (set_files w (fs_set (files w) p (Some []))) h (Some (p, [])))
  | Write h s =>
      match get_handle w h with
      | Some (p, buf) => Ok (set_handle w h (Some (p, buf ++ encode_utf8 s)))
      | None => Raise ValueError
      end
  | Flush h => flush_handle w h
  | Close h =>
      w' <- flush_handle w h ;; Ok (set_handle w' h None)
  | Replace src dst =>
      match files w src with
      | Some c => Ok (set_files w (fs_set (fs_set (files w) dst (Some c)) src None))
      | None => Raise (OSError ENOENT)
      end
  end.

(** When a primitive raises inside the [with] block of
    [atomic_write_json], the block closes its file on the way out.  A
    [close] that raises leaves the file closed. *)
Definition unwind (i : instr) (w : world) : world :=
  match i with
  | Close h => set_handle w h None
  | _ =>
      match flush_handle w TmpFile with
      | Ok w' => set_handle w' TmpFile None
      | Raise _ => w
      end
  end.

(** The environment may make one primitive of a run fail: [Some (k, e)]
    makes the primitive number [k] raise [e] and do nothing. *)
Definition fault : Type := option (nat * exn).

Definition later (flt : fault) : fault :=
  match flt with
  | Some (S k, e) => Some (k, e)
  | _ => None
  end.

Definition raised_now (flt : fault) : option exn :=
  match flt with
  | Some (O, e) => Some e
  | _ => None
  end.

(** Runs the primitives in order from [w]: the world at the end, and the
    exception that stopped the run, if one did. *)
Fixpoint run (flt : fault) (prog : list instr) (w : world) :
  world * option exn :=
  match prog with
  | [] => (w, None)
  | i :: rest =>
      match raised_now flt with
      | Some e => (unwind i w, Some e)
      | None =>
          match step_instr w i with
          | Ok w' => run (later flt) rest w'
          | Raise e => (unwind i w, Some e)
          end
      end
  end.

(** The same run, seen from outside: the worlds reached after each
    primitive, in order. *)
Fixpoint trace (flt : fault) (prog : list instr) (w : world) : list world :=
  match prog with
  | [] => []
  | i :: rest =>
      match raised_now flt with
      | Some e => [unwind i w]
      | None =>
          match step_instr w i with
          | Ok w' => w' :: trace (later flt) rest w'
          | Raise e => [unwind i w]
          end
      end
  end.

(* ================================================================== *)
(** * The listener *)

(** ** Helper functions *)

(** [min(a, b)] and [max(a, b)] of two arguments: the second replaces the
    first only when it compares strictly smaller (larger). *)
Definition py_min (a b : float) : float := if (b <? a)%float then b else a.
Definition py_max (a b : float) : float := if (a <? b)%float then b else a.

Definition clamp01 (x : float) : float := py_max 0 (py_min 1 x).

Definition to_float (v : pyval) : result float :=
  match v with
  | PyBool b => float_of_int (if b then 1 else 0)
  | PyInt n => float_of_int n
  | PyFloat f => Ok f
  | PyStr s => float_of_str (strip s)
  | _ => Raise ValueError
  end.

Definition truthy : list str :=
  [str_of "1"; str_of "true"; str_of "yes"; str_of "y"].

Definition to_bool (v : pyval) : result bool :=
  match v with
  | PyBool b => Ok b
  | PyInt n => Ok (negb (n =? 0))
  | PyFloat f => Ok (negb (f =? 0)%float)
  | PyStr s => Ok (existsb (str_eqb (lower (strip s))) truthy)
  | _ => Raise ValueError
  end.

(** The dictionary [parse_packet] returns: always these four keys, in
    this order, with values of these types. *)
Record sample : Type := mkSample {
  ts : float;
  aTA : float;
  aGAS : float;
  valid : bool
}.

Definition field (msg : pyval) (k : string) : result pyval :=
  getitem msg (str_of k).

Definition parse_packet (raw : list byte) : result sample :=
  text <- decode_utf8 raw ;;
  msg <- json_loads text ;;
  v1 <- field msg "ts" ;;
  f1 <- to_float v1 ;;
  v2 <- field msg "aTA" ;;
  f2 <- to_float v2 ;;
  v3 <- field msg "aGAS" ;;
  f3 <- to_float v3 ;;
  v4 <- field msg "valid" ;;
  b4 <- to_bool v4 ;;
  Ok (mkSample f1 (clamp01 f2) (clamp01 f3) b4).

(** ** [json.dump] of a sample *)

Definition quoted (k : string) : str := (34%N :: str_of k) ++ [34%N].

Definition json_float (x : float) : str :=
  match Prim2SF x with
  | S754_nan => str_of "NaN"
  | S754_infinity false => str_of "Infinity"
  | S754_infinity true => str_of "-Infinity"
  | _ => float_repr x
  end.

Definition json_bool (b : bool) : str :=
  if b then str_of "true" else str_of "false".

(** The pieces [json.dump] hands to [f.write], one call each. *)
Definition json_chunks (data : sample) : list str :=
  [ str_of "{";
    quoted "ts"; str_of ": "; json_float (ts data); str_of ", ";
    quoted "aTA"; str_of ": "; json_float (aTA data); str_of ", ";
    quoted "aGAS"; str_of ": "; json_float (aGAS data); str_of ", ";
    quoted "valid"; str_of ": "; json_bool (valid data);
    str_of "}" ].

Definition newline : str := [10%N].

(** The text of the published file. *)
Definition json_text (data : sample) : str :=
  List.concat (json_chunks data) ++ newline.

(** ** [atomic_write_json] *)

Definition tmp_of (p : path) : path := (p ++ ".tmp")%string.

(** [with open(tmp, "w", encoding="utf-8") as f:] around the writes of
    [body], one [f.write] for each piece. *)
Definition with_open_write (tmp : path) (body : list str) : list instr :=
  OpenWrite TmpFile tmp :: map (Write TmpFile) body ++ [Close TmpFile].

Definition atomic_write_json (p : path) (data : sample) : list instr :=
  let tmp := tmp_of p in
  with_open_write tmp (json_chunks data ++ [newline])
    ++ [Replace tmp p].

(** ** The log *)

Definition crlf : str := [13%N; 10%N].

(** [writer.writeheader()] *)
Definition csv_header : str := str_of "recv_ts,ts,aTA,aGAS,valid" ++ crlf.

Definition py_bool_str (b : bool) : str :=
  if b then str_of "True" else str_of "False".

Definition comma : str := [44%N].

(** The line [writer.writerow] writes for one record. *)
Definition csv_row (recv_ts : float) (emg : sample) : str :=
  float_repr recv_ts ++ comma
    ++ float_repr (ts emg) ++ comma
    ++ float_repr (aTA emg) ++ comma
    ++ float_repr (aGAS emg) ++ comma
    ++ py_bool_str (valid emg) ++ crlf.

(** ** [main] *)

(** The options of the command line that reach the loop. *)
Record args : Type := mkArgs {
  outdir : string;
  max_packet : nat
}.

Fixpoint ends_with_slash (s : string) : bool :=
  match s with
  | EmptyString => false
  | String c EmptyString => Ascii.eqb c "/"
  | String _ s' => ends_with_slash s'
  end.

(** The separator [os.path.join(d, name)] puts between [d] and a relative
    [name]. *)
Definition join_sep (d : string) : string :=
  match d with
  | EmptyString => EmptyString
  | _ => if ends_with_slash d then EmptyString else "/"%string
  end.

Definition path_join (d name : string) : path := (d ++ join_sep d ++ name)%string.

Definition csv_path (a : args) : path := path_join (outdir a) "emg_log.csv".
Definition latest_path (a : args) : path := path_join (outdir a) "emg_latest.json".

(** The variables of [main] that live across iterations, and the disk. *)
Record loop_state : Type := mkLoop {
  ok : Z;
  bad : Z;
  last_sample : option sample;
  disk : world
}.

(** What one call of [sock.recvfrom] brings: an exception (the timeout of
    the socket, an interrupt, ...), or a datagram, the clock read after
    it, and the failure the environment may inject into the writes of
    this iteration. *)
Inductive event : Type :=
| RecvRaises (e : exn)
| Packet (datagram : list byte) (recv_ts : float) (flt : fault).

Inductive outcome : Type :=
| Running (st : loop_state)
| Stopped (e : exn) (st : loop_state).

Inductive main_result : Type :=
| StillRunning (st : loop_state)
| Returned (w : world)
| Raised (e : exn) (w : world).

(** The lines 115 to 123: the log is opened for appending and gets its
    header when the file did not exist. *)
Definition open_log (a : args) (new_file : bool) : list instr :=
  OpenAppend CsvFile (csv_path a)
    :: (if new_file then [Write CsvFile csv_header; Flush CsvFile] else []).

Definition start (a : args) (flt : fault) (w : world) : result loop_state :=
  let new_file := match files w (csv_path a) with
                  | Some _ => false
                  | None => true
                  end in
  match run flt (open_log a new_file) w with
  | (w', None) => Ok (mkLoop 0 0 None w')
  | (_, Some e) => Raise e
  end.

(** The writes of one accepted packet, lines 156 to 163. *)
Definition persist (a : args) (recv_ts : float) (emg : sample) : list instr :=
  [Write CsvFile (csv_row recv_ts emg); Flush CsvFile]
    ++ atomic_write_json (latest_path a) emg.

Section Loop.

(** [socket.timeout] is the builtin [TimeoutError] since CPython 3.10;
    before, it was a class of its own under [OSError]. *)
Variable timeout_alias : bool.

Variable a : args.

(** What [recvfrom] raises when the wait of one second elapses. *)
Definition socket_timeout : exn :=
  if timeout_alias then TimeoutError else LegacySocketTimeout.

(** [isinstance(e, socket.timeout)], the test of the handler at line
    179. *)
Definition is_socket_timeout (e : exn) : bool :=
  match e with
  | LegacySocketTimeout => true
  | TimeoutError => timeout_alias
  | _ => false
  end.

(** The handler of the outer [try]: a [socket.timeout] is passed over
    and the loop goes on, anything else leaves the loop. *)
Definition outer_handler (e : exn) (st : loop_state) : outcome :=
  if is_socket_timeout e then Running st else Stopped e st.

(** One turn of the [while True] loop, lines 145 to 180.  The console
    output and the two clocks that pace it are left out. *)
Definition iteration (st : loop_state) (ev : event) : outcome :=
  match ev with
  | RecvRaises e => outer_handler e st
  | Packet datagram recv_ts flt =>
      let raw := firstn (max_packet a) datagram in
      match parse_packet raw with
      | Raise e =>
          if is_Exception e
          then Running (mkLoop (ok st) (bad st + 1) (last_sample st) (disk st))
          else outer_handler e st
      | Ok emg =>
          match run flt (persist a recv_ts emg) (disk st) with
          | (w', None) =>
              Running (mkLoop (ok st + 1) (bad st) (Some emg) w')
          | (w', Some e) =>
              outer_handler e
                (mkLoop (ok st) (bad st) (last_sample st) w')
          end
      end
  end.

Fixpoint main_loop (evs : list event) (st : loop_state) : outcome :=
  match evs with
  | [] => Running st
  | ev :: evs' =>
      match iteration st ev with
      | Running st' => main_loop evs' st'
      | Stopped e st' => Stopped e st'
      end
  end.

(** The end of [main]: the [finally] clause closes the log; an
    interrupt from the keyboard ends [main] normally, any other
    exception goes on to the caller. *)
Definition leave (e : exn) (st : loop_state) : option exn * world :=
  let w := match step_instr (disk st) (Close CsvFile) with
           | Ok w' => w'
           | Raise _ => disk st
           end in
  (match e with KeyboardInterrupt => None | _ => Some e end, w).

(** [main] from line 115 on, for the events [evs]: the loop is still
    running after them, or [main] has returned, or an exception has
    left it. *)
Definition main (flt : fault) (w : world) (evs : list event) : main_result :=
  match start a flt w with
  | Raise e => Raised e w
  | Ok st0 =>
      match main_loop evs st0 with
      | Running st => StillRunning st
      | Stopped e st =>
          match leave e st with
          | (None, w') => Returned w'
          | (Some e', w') => Raised e' w'
          end
      end
  end.

End Loop.

(** The samples a sequence of events has the loop accept, each with its
    receive time, in order of arrival. *)
Fixpoint accepted (a : args) (evs : list event) : list (float * sample) :=
  match evs with
  | [] => []
  | Packet datagram recv_ts _ :: evs' =>
      match parse_packet (firstn (max_packet a) datagram) with
      | Ok emg => (recv_ts, emg) :: accepted a evs'
      | Raise _ => accepted a evs'
      end
  | RecvRaises _ :: evs' => accepted a evs'
  end.

(* ================================================================== *)
(** * Vocabulary of the properties *)

(** A float between 0 and 1, both included. *)
Definition in_unit (x : float) : Prop :=
  (0 <=? x)%float = true /\ (x <=? 1)%float = true.

(** The fields a packet must have. *)
Definition required : list string := ["ts"; "aTA"; "aGAS"; "valid"]%string.

(** The coercion [parse_packet] applies to the field [k]. *)
Definition coerces (k : string) (v : pyval) : bool :=
  if String.eqb k "valid" then is_ok (to_bool v) else is_ok (to_float v).

(** The four ways in which a packet is malformed. *)
Inductive malformed (raw : list byte) : Prop :=
| bad_encoding :
    decode_utf8 raw = Raise UnicodeDecodeError -> malformed raw
| bad_syntax (text : str) :
    decode_utf8 raw = Ok text ->
    json_loads text = Raise JSONDecodeError -> malformed raw
| missing_field (text : str) (msg : pyval) (k : string) :
    decode_utf8 raw = Ok text -> json_loads text = Ok msg ->
    In k required -> is_ok (field msg k) = false -> malformed raw
| bad_value (text : str) (msg : pyval) (k : string) (v : pyval) :
    decode_utf8 raw = Ok text -> json_loads text = Ok msg ->
    In k required -> field msg k = Ok v -> coerces k v = false ->
    malformed raw.

(** An event during which the environment raises nothing but the timeout
    of the socket. *)
Definition calm (timeout_alias : bool) (ev : event) : Prop :=
  match ev with
  | RecvRaises e => e = socket_timeout timeout_alias
  | Packet _ _ flt => flt = None
  end.

(** The text of the log rows of a list of records. *)
Definition rows (l : list (float * sample)) : str :=
  List.concat (map (fun r => csv_row (fst r) (snd r)) l).

Definition last_of {A : Type} (l : list A) : option A :=
  match l with
  | [] => None
  | x :: l' => Some (last l' x)
  end.




(** The sample of the round trip. *)
Definition sample_1 : sample := mkSample 1.5 0.42 0.77 true.

Definition state_of (o : outcome) : loop_state :=
  match o with
  | Running st => st
  | Stopped _ st => st
  end.

(** A packet that decodes, for the examples. *)
Definition packet_of (text : string) : list byte :=
  encode_utf8 (dq (str_of text)).

(** ** Disks after complete runs *)

(** The disk after a publication of [data] at [p] that met no failure. *)
Definition published (f : fs) (p : path) (data : sample) : fs :=
  fs_set (fs_set (fs_set (fs_set f (tmp_of p) (Some []))
                         (tmp_of p) (Some (encode_utf8 (json_text data))))
                 p (Some (encode_utf8 (json_text data))))
         (tmp_of p) None.

(** While the [with] block runs, the published path keeps its content
    and the only file the block has open is the temporary one. *)
Definition block_inv (p : path) (old : option (list byte)) (w : world) : Prop :=
  files w p = old
  /\ (tmp_file w = None \/ exists buf, tmp_file w = Some (tmp_of p, buf)).

(** What a path holds, nothing when it does not exist. *)
Definition content (f : fs) (p : path) : list byte :=
  match f p with
  | Some c => c
  | None => []
  end.

(** The disk after the writes of one accepted packet that met no
    failure. *)
Definition persisted (a : args) (f : fs) (recv_ts : float) (emg : sample) : fs :=
  published
    (fs_set f (csv_path a)
            (Some (content f (csv_path a) ++ encode_utf8 (csv_row recv_ts emg))))
    (latest_path a) emg.

(** ** Examples *)

Definition args_1 : args := mkArgs "out" 4096.

Definition empty_world : world := mkWorld no_files None None.

(** A packet with the sample of the round trip. *)
Definition packet_1 : list byte :=
  packet_of "{'ts': 1.5, 'aTA': 0.42, 'aGAS': 0.77, 'valid': true}".

(** A packet cut in the middle. *)
Definition packet_bad : list byte := packet_of "{'ts': 1.5, 'aTA': ".

(** A listener in the middle of its work: three packets accepted, one
    rejected, the log open with its header on the disk. *)
Definition state_1 : loop_state :=
  mkLoop 3 1 None
         (mkWorld (fs_set no_files (csv_path args_1) (Some (encode_utf8 csv_header)))
                  (Some (csv_path args_1, [])) None).

Definition events_1 : list event :=
  [Packet packet_1 1730707200.5 None;
   RecvRaises TimeoutError;
   Packet packet_bad 1730707201.5 None].

(* ================================================================== *)
(** * Further vocabulary *)

(** A string made of white space only. *)
Definition all_space (s : str) : Prop := Forall (fun c => is_space c = true) s.

(** Two characters that are the same ASCII letter up to case, or the
    same character. *)
Definition same_letter (c d : char) : Prop :=
  ascii_lower_char c = ascii_lower_char d.

(** The message [json.loads] gives for a packet. *)
Definition message_of (raw : list byte) : result pyval :=
  text <- decode_utf8 raw ;; json_loads text.

(** The log is open at its path, with some bytes perhaps still in its
    buffer, and the temporary file is closed: how the files stand
    between two iterations. *)
Definition log_open (a : args) (w : world) : Prop :=
  (exists buf, csv_file w = Some (csv_path a, buf)) /\ tmp_file w = None.

(** [l] starts with [l0]. *)
Definition extends {A : Type} (l0 l : list A) : Prop :=
  exists suffix, l = l0 ++ suffix.

(** The number of packets of a sequence of events that [parse_packet]
    rejects. *)
Fixpoint rejected (a : args) (evs : list event) : nat :=
  match evs with
  | [] => O
  | Packet datagram _ _ :: evs' =>
      match parse_packet (firstn (max_packet a) datagram) with
      | Ok _ => rejected a evs'
      | Raise _ => S (rejected a evs')
      end
  | RecvRaises _ :: evs' => rejected a evs'
  end.

(** Characters that the [csv] writer would have to quote: the comma, the
    double quote, the carriage return and the line feed. *)
Definition needs_quoting (c : char) : bool :=
  (c =? 44)%N || (c =? 34)%N || (c =? 13)%N || (c =? 10)%N.

(** What [parse_packet] makes of the message, lines 70 to 75. *)
Definition sample_of_message (msg : pyval) : result sample :=
  v1 <- field msg "ts" ;;
  f1 <- to_float v1 ;;
  v2 <- field msg "aTA" ;;
  f2 <- to_float v2 ;;
  v3 <- field msg "aGAS" ;;
  f3 <- to_float v3 ;;
  v4 <- field msg "valid" ;;
  b4 <- to_bool v4 ;;
  Ok (mkSample f1 (clamp01 f2) (clamp01 f3) b4).

(** During a publication at [p]: the path [q] and the handle of the log
    are as in [w0], and the temporary handle, if open, is on the
    temporary file of [p]. *)
Definition frame_inv (p q : path) (w0 w : world) : Prop :=
  files w q = files w0 q
  /\ csv_file w = csv_file w0
  /\ (tmp_file w = None \/ exists buf, tmp_file w = Some (tmp_of p, buf)).

(** During the writes of an accepted packet: the log is open at its
    path, the temporary handle, if open, is on the temporary file of the
    published path, and the log on the disk starts with [c0]. *)
Definition log_inv (a : args) (c0 : list byte) (w : world) : Prop :=
  (exists buf, csv_file w = Some (csv_path a, buf))
  /\ (tmp_file w = None
      \/ exists buf, tmp_file w = Some (tmp_of (latest_path a), buf))
  /\ extends c0 (content (files w) (csv_path a)).

(** The characters [repr] of a float is made of: the digits, the two
    signs, the point, [e], and the letters of [nan] and [inf]. *)
Definition repr_char (c : char) : bool :=
  is_digit c || (c =? 43)%N || (c =? 45)%N || (c =? 46)%N || (c =? 101)%N
  || (c =? 110)%N || (c =? 97)%N || (c =? 105)%N || (c =? 102)%N.

(** Printable ASCII. *)
Definition printable (c : char) : bool := in_range 32 126 c.

(** How a reader splits a line without quotes into its fields. *)
Fixpoint csv_split (line : str) : list str :=
  match line with
  | [] => [[]]
  | c :: rest =>
      if (c =? 44)%N then [] :: csv_split rest
      else match csv_split rest with
           | fld :: flds => (c :: fld) :: flds
           | [] => [[c]]
           end
  end.

(** The five values of a log row, as they are written. *)
Definition csv_fields (recv_ts : float) (emg : sample) : list str :=
  [float_repr recv_ts; float_repr (ts emg); float_repr (aTA emg);
   float_repr (aGAS emg); py_bool_str (valid emg)].

(* ================================================================== *)
(** * The console *)

(** [str(n)] for an [int]. *)
Definition int_str (n : Z) : str :=
  if n <? 0 then 45%N :: digits_of_Z (- n) else digits_of_Z n.

(** The digits of [n], with zeros in front up to three digits. *)
Definition pad3 (n : Z) : str :=
  let ds := digits_of_Z n in
  repeat 48%N (3 - List.length ds) ++ ds.

(** [format(x, ".3f")]: three decimals, the exact value rounded to the
    nearest, ties to even. *)
Definition format_f3 (x : float) : str :=
  match Prim2SF x with
  | S754_nan => str_of "nan"
  | S754_infinity neg => minus_if neg (str_of "inf")
  | S754_zero neg => minus_if neg (str_of "0.000")
  | S754_finite neg m e =>
      let num := (if 0 <=? e then Zpos m * 2 ^ e else Zpos m) * 1000 in
      let den := if 0 <=? e then 1 else 2 ^ (- e) in
      let q := num / den in
      let r := num mod den in
      let up := (den <? 2 * r) || ((den =? 2 * r) && Z.odd q) in
      let k := if up then q + 1 else q in
      minus_if neg (digits_of_Z (k / 1000) ++ 46%N :: pad3 (k mod 1000))
  end.

(** The options that pace the output, and those the banner shows. *)
Record display : Type := mkDisplay {
  bind_address : str;
  port : Z;
  print_every : float;
  status_every : float
}.

(** The variables of [main] that pace the output, and the lines printed
    so far, oldest first. *)
Record console : Type := mkConsole {
  last_live_print : float;
  last_status_print : float;
  printed : list str
}.

(** One turn of the loop as the console sees it: what [recvfrom] brings,
    the address of the sender, and the two later readings of the clock,
    [now] (line 169) and [t] (line 183). *)
Record tick : Type := mkTick {
  received : event;
  sender : str;
  now : float;
  t : float
}.

Definition flag (b : bool) : str := if b then [49%N] else [48%N].

(** Lines 173 to 177. *)
Definition live_line (emg : sample) (from : str) : str :=
  str_of "[LIVE] aTA=" ++ format_f3 (aTA emg)
    ++ str_of " aGAS=" ++ format_f3 (aGAS emg)
    ++ str_of " valid=" ++ flag (valid emg)
    ++ str_of " from=" ++ from.

(** Lines 186 to 190. *)
Definition status_line (st : loop_state) : str :=
  str_of "[STATUS] ok=" ++ int_str (ok st)
    ++ str_of " bad=" ++ int_str (bad st)
    ++ match last_sample st with
       | None => str_of " (waiting for data)"
       | Some s => str_of " (last valid=" ++ flag (valid s) ++ str_of ")"
       end.

(** Lines 169 to 177: the live line, paced. *)
Definition live_print (d : display) (con : console) (emg : sample)
           (from : str) (now : float) : console :=
  if (print_every d <=? now - last_live_print con)%float
  then mkConsole now (last_status_print con)
                 (printed con ++ [live_line emg from])
  else con.

(** Lines 183 to 190: the status line, paced. *)
Definition status_print (d : display) (con : console) (st : loop_state)
           (t : float) : console :=
  if (status_every d <=? t - last_status_print con)%float
  then mkConsole (last_live_print con) t (printed con ++ [status_line st])
  else con.

(** Lines 130 to 135. *)
Definition banner (d : display) (a : args) : list str :=
  [ 10%N :: str_of "================ EMG UDP LISTENER =================";
    str_of "Listening on " ++ bind_address d ++ 58%N :: int_str (port d);
    str_of "Logging to " ++ str_of (csv_path a);
    str_of "Mode: PASSIVE / HEADLESS";
    str_of "Press Ctrl+C to stop";
    str_of "===================================================" ++ [10%N] ].

(** The console when the loop is entered, [t0] being the clock of line
    140. *)
Definition console_start (d : display) (a : args) (t0 : float) : console :=
  mkConsole 0 t0 (banner d a).

Section Console.

Variable timeout_alias : bool.
Variable a : args.
Variable d : display.

(** One turn of the loop with its output, lines 145 to 190.  An
    exception that leaves the loop skips the status; so does the
    [continue] of a rejected packet. *)
Definition turn (st : loop_state) (con : console) (tk : tick) :
  outcome * console :=
  match received tk with
  | RecvRaises e =>
      if is_socket_timeout timeout_alias e
      then (Running st, status_print d con st (t tk))
      else (Stopped e st, con)
  | Packet datagram recv_ts flt =>
      match parse_packet (firstn (max_packet a) datagram) with
      | Raise e =>
          if is_Exception e
          then (Running (mkLoop (ok st) (bad st + 1) (last_sample st) (disk st)),
                con)
          else if is_socket_timeout timeout_alias e
               then (Running st, status_print d con st (t tk))
               else (Stopped e st, con)
      | Ok emg =>
          match run flt (persist a recv_ts emg) (disk st) with
          | (w', None) =>
              let st' := mkLoop (ok st + 1) (bad st) (Some emg) w' in
              let con' := live_print d con emg (sender tk) (now tk) in
              (Running st', status_print d con' st' (t tk))
          | (w', Some e) =>
              let st' := mkLoop (ok st) (bad st) (last_sample st) w' in
              if is_socket_timeout timeout_alias e
              then (Running st', status_print d con st' (t tk))
              else (Stopped e st', con)
          end
      end
  end.

(** The loop with its output; an interrupt from the keyboard prints the
    line of line 193. *)
Fixpoint watch (tks : list tick) (st : loop_state) (con : console) :
  outcome * console :=
  match tks with
  | [] => (Running st, con)
  | tk :: tks' =>
      match turn st con tk with
      | (Running st', con') => watch tks' st' con'
      | (Stopped e st', con') =>
          (Stopped e st',
           match e with
           | KeyboardInterrupt =>
               mkConsole (last_live_print con') (last_status_print con')
                         (printed con' ++ [10%N :: str_of "Stopping listener..."])
           | _ => con'
           end)
      end
  end.

End Console.

(** Whether a turn gets a live line: its packet decodes, its writes all
    complete, and [print_every] has elapsed since the last live line. *)
Definition live_due (a : args) (d : display) (st : loop_state) (con : console)
           (tk : tick) : bool :=
  match received tk with
  | Packet datagram recv_ts flt =>
      match parse_packet (firstn (max_packet a) datagram) with
      | Ok emg =>
          match snd (run flt (persist a recv_ts emg) (disk st)) with
          | None => (print_every d <=? now tk - last_live_print con)%float
          | Some _ => false
          end
      | Raise _ => false
      end
  | RecvRaises _ => false
  end.

(** The options as [argparse] sets them when none is given. *)
Definition default_display : display :=
  mkDisplay (str_of "0.0.0.0") 5005 0.2 2.0.

(** A tick whose datagram [parse_packet] rejects. *)
Definition brings_malformed (a : args) (tk : tick) : Prop :=
  exists datagram recv_ts flt e,
    received tk = Packet datagram recv_ts flt
    /\ parse_packet (firstn (max_packet a) datagram) = Raise e.

(* ================================================================== *)
(** * Properties *)

(** ** Order on floats *)

Lemma ltb_leb (x y : float) : (x <? y)%float = true -> (x <=? y)%float = true.
Proof.
  rewrite ltb_spec, leb_spec. unfold SFltb, SFleb.
  destruct (SFcompare _ _) as [[]|]; congruence.
Qed.

Lemma Prim2SF_zero : Prim2SF 0 = S754_zero false.
Proof. vm_compute. reflexivity. Qed.

Lemma Prim2SF_one : Prim2SF 1 = S754_finite false 4503599627370496 (-52).
Proof. vm_compute. reflexivity. Qed.

Lemma below_zero_below_one (x : float) :
  (x <? 0)%float = true -> (x <? 1)%float = true /\ (0 <? x)%float = false.
Proof.
  rewrite !ltb_spec, Prim2SF_zero, Prim2SF_one. unfold SFltb.
  destruct (Prim2SF x) as [s|s| |s m e]; try destruct s;
    cbv beta iota delta [SFcompare]; try discriminate; auto.
Qed.

Lemma above_one_not_below (x : float) :
  (1 <? x)%float = true -> (x <? 1)%float = false.
Proof.
  rewrite !ltb_spec, Prim2SF_one. unfold SFltb.
  destruct (Prim2SF x) as [s|s| |s m e]; try destruct s;
    cbv beta iota delta [SFcompare]; try discriminate; auto.
  rewrite (Z.compare_antisym e (-52)).
  destruct (e ?= -52) eqn:E; cbv beta iota delta [CompOpp];
    try discriminate; auto.
  assert (A : Pos.compare_cont Eq m 4503599627370496
              = CompOpp (Pos.compare_cont Eq 4503599627370496 m))
    by (rewrite Pos.compare_cont_antisym; reflexivity).
  rewrite A.
  destruct (Pos.compare_cont Eq 4503599627370496 m);
    cbv beta iota delta [CompOpp]; congruence.
Qed.

Lemma clamp01_in_unit (x : float) : in_unit (clamp01 x).
Proof.
  unfold in_unit, clamp01, py_max, py_min.
  destruct (x <? 1)%float eqn:E1.
  - destruct (0 <? x)%float eqn:E2.
    + split; apply ltb_leb; assumption.
    + split; reflexivity.
  - split; reflexivity.
Qed.

Lemma clamp01_below (x : float) : (x <? 0)%float = true -> clamp01 x = 0%float.
Proof.
  intros H. destruct (below_zero_below_one x H) as [H1 H2].
  unfold clamp01, py_max, py_min. rewrite H1, H2. reflexivity.
Qed.

Lemma clamp01_above (x : float) : (1 <? x)%float = true -> clamp01 x = 1%float.
Proof.
  intros H. unfold clamp01, py_max, py_min.
  rewrite (above_one_not_below x H). reflexivity.
Qed.

(** A NaN is clamped to 1: it is not smaller than 1, so [min] keeps
    1. *)
Example clamp01_nan : clamp01 nan = 1%float.
Proof. vm_compute. reflexivity. Qed.

Lemma clamp01_inside (x : float) :
  (0 <? x)%float = true -> (x <? 1)%float = true -> clamp01 x = x.
Proof.
  intros H0 H1. unfold clamp01, py_max, py_min. rewrite H1, H0. reflexivity.
Qed.

(** ** Results *)

Lemma bind_ok {A B} (r : result A) (k : A -> result B) (b : B) :
  bind r k = Ok b -> exists a, r = Ok a /\ k a = Ok b.
Proof. destruct r; simpl; intros H; [eauto | discriminate]. Qed.

Lemma parse_packet_ok (raw : list byte) (s : sample) :
  parse_packet raw = Ok s ->
  exists text msg v1 v2 v3 v4 f1 f2 f3 b4,
    decode_utf8 raw = Ok text /\ json_loads text = Ok msg /\
    field msg "ts" = Ok v1 /\ to_float v1 = Ok f1 /\
    field msg "aTA" = Ok v2 /\ to_float v2 = Ok f2 /\
    field msg "aGAS" = Ok v3 /\ to_float v3 = Ok f3 /\
    field msg "valid" = Ok v4 /\ to_bool v4 = Ok b4 /\
    s = mkSample f1 (clamp01 f2) (clamp01 f3) b4.
Proof.
  unfold parse_packet. intros H.
  repeat (apply bind_ok in H; destruct H as [? [? H]]).
  inversion H. do 10 eexists. repeat split; eassumption.
Qed.

(** Claim C4.  In every sample [parse_packet] returns, [aTA] and [aGAS]
    lie between 0 and 1; [clamp01] sends what is below 0 to 0 and what is
    above 1 to 1; a packet with [aTA = -0.1] and [aGAS = 1.7] decodes to
    [0.0] and [1.0]. *)
Theorem decoded_activations_clamped :
  (forall raw s, parse_packet raw = Ok s -> in_unit (aTA s) /\ in_unit (aGAS s))
  /\ (forall x, (x <? 0)%float = true -> clamp01 x = 0%float)
  /\ (forall x, (1 <? x)%float = true -> clamp01 x = 1%float)
  /\ parse_packet
       (packet_of "{'ts': 3, 'aTA': -0.1, 'aGAS': 1.7, 'valid': true}")
     = Ok (mkSample 3 0 1 true).
Proof.
  split; [| split; [| split]].
  - intros raw s H. apply parse_packet_ok in H.
    destruct H as (text & msg & v1 & v2 & v3 & v4 & f1 & f2 & f3 & b4 & H).
    decompose [and] H. subst s. simpl. split; apply clamp01_in_unit.
  - exact clamp01_below.
  - exact clamp01_above.
  - vm_compute. reflexivity.
Qed.

(** ** Paths *)

Lemma append_assoc (a b c : string) : ((a ++ b) ++ c = a ++ (b ++ c))%string.
Proof. induction a as [|x a IH]; simpl; [reflexivity | now rewrite IH]. Qed.

Lemma append_inj_l (p a b : string) : (p ++ a = p ++ b)%string -> a = b.
Proof. induction p as [|x p IH]; simpl; intros H; [assumption | inversion H; auto]. Qed.

Lemma append_length (a b : string) :
  String.length (a ++ b) = (String.length a + String.length b)%nat.
Proof. induction a as [|x a IH]; simpl; [reflexivity | now rewrite IH]. Qed.

Lemma tmp_of_neq (p : path) : tmp_of p <> p.
Proof.
  unfold tmp_of. intros H. apply (f_equal String.length) in H.
  rewrite append_length in H. simpl in H. lia.
Qed.

Lemma csv_latest_neq (a : args) : csv_path a <> latest_path a.
Proof.
  unfold csv_path, latest_path, path_join. intros H.
  do 2 apply append_inj_l in H. discriminate H.
Qed.

Lemma csv_tmp_neq (a : args) : csv_path a <> tmp_of (latest_path a).
Proof.
  unfold csv_path, latest_path, path_join, tmp_of. intros H.
  rewrite !append_assoc in H. do 2 apply append_inj_l in H. discriminate H.
Qed.

(** ** The disk *)

Lemma fs_set_same (f : fs) (p : path) (c : option (list byte)) :
  fs_set f p c p = c.
Proof. unfold fs_set. now rewrite String.eqb_refl. Qed.

Lemma fs_set_other (f : fs) (p q : path) (c : option (list byte)) :
  q <> p -> fs_set f p c q = f q.
Proof.
  intros H. unfold fs_set. apply String.eqb_neq in H. now rewrite H.
Qed.

Lemma encode_utf8_app (s t : str) :
  encode_utf8 (s ++ t) = encode_utf8 s ++ encode_utf8 t.
Proof. unfold encode_utf8. apply flat_map_app. Qed.

(** ** Runs *)

Lemma last_cons_default {A : Type} (l : list A) :
  forall x d d', last (x :: l) d = last (x :: l) d'.
Proof.
  induction l as [|y l IH]; intros x d d'; [reflexivity |].
  change (last (y :: l) d = last (y :: l) d'). apply IH.
Qed.

Lemma run_trace_last (prog : list instr) :
  forall flt w, fst (run flt prog w) = last (trace flt prog w) w.
Proof.
  induction prog as [|i rest IH]; intros flt w; simpl; [reflexivity |].
  destruct (raised_now flt); [reflexivity |].
  destruct (step_instr w i) as [w'|e]; [| reflexivity].
  rewrite IH. destruct (trace (later flt) rest w') as [|w0 l]; [reflexivity |].
  change (last (w0 :: l) w' = last (w0 :: l) w). apply last_cons_default.
Qed.

(** A run that ends without an exception met no failure: it is the run
    of an environment that injects none. *)
Lemma run_completes (prog : list instr) :
  forall flt w, snd (run flt prog w) = None ->
                run flt prog w = run None prog w
                /\ trace flt prog w = trace None prog w.
Proof.
  induction prog as [|i rest IH]; intros flt w; simpl; [auto |].
  destruct (raised_now flt); [discriminate |].
  destruct (step_instr w i) as [w'|e]; [| discriminate].
  intros H. destruct (IH _ _ H) as [H1 H2]. now rewrite H1, H2.
Qed.

(** A failure injected into a run that would complete stops it with the
    injected exception. *)
Lemma fault_fires (prog : list instr) :
  forall k e w, snd (run None prog w) = None -> (k < List.length prog)%nat ->
                snd (run (Some (k, e)) prog w) = Some e.
Proof.
  induction prog as [|i rest IH]; intros k e w; simpl; [lia |].
  destruct (step_instr w i) as [w'|e']; [| discriminate].
  intros H Hk. destruct k as [|k]; simpl; [reflexivity |].
  apply IH; [assumption | lia].
Qed.

Lemma run_app (p1 p2 : list instr) :
  forall flt w,
    run flt (p1 ++ p2) w =
    match run flt p1 w with
    | (w1, None) => run (Nat.iter (List.length p1) later flt) p2 w1
    | (w1, Some e) => (w1, Some e)
    end.
Proof.
  induction p1 as [|i rest IH]; intros flt w; simpl; [reflexivity |].
  destruct (raised_now flt); [reflexivity |].
  destruct (step_instr w i) as [w'|e]; [| reflexivity].
  rewrite IH. destruct (run (later flt) rest w') as [w1 [e|]]; [reflexivity |].
  f_equal. clear. induction (List.length rest); simpl; [reflexivity |].
  rewrite <- IHn. clear. induction n; simpl; congruence.
Qed.


(** An invariant that every primitive of a program keeps, whether the
    primitive succeeds or is unwound, holds all along its runs. *)
Lemma trace_invariant (Inv : world -> Prop) (prog : list instr) :
  (forall i w, In i prog -> Inv w ->
               (forall w', step_instr w i = Ok w' -> Inv w') /\ Inv (unwind i w)) ->
  forall flt w, Inv w -> Forall Inv (trace flt prog w).
Proof.
  induction prog as [|i rest IH]; intros Hstep flt w Hw; simpl; [constructor |].
  destruct (Hstep i w (or_introl eq_refl) Hw) as [Hok Hun].
  destruct (raised_now flt); [repeat constructor; assumption |].
  destruct (step_instr w i) as [w'|e] eqn:E; [| repeat constructor; assumption].
  constructor; [auto |]. apply IH; [| auto].
  intros j w0 Hj. apply Hstep. now right.
Qed.

(** ** [atomic_write_json] *)

Lemma run_writes (body : list str) :
  forall rest f c q buf,
    run None (map (Write TmpFile) body ++ rest) (mkWorld f c (Some (q, buf)))
    = run None rest
          (mkWorld f c (Some (q, buf ++ encode_utf8 (List.concat body)))).
Proof.
  induction body as [|s body IH]; intros rest f c q buf.
  - cbn [map app List.concat]. unfold encode_utf8 at 1. cbn [flat_map].
    now rewrite app_nil_r.
  - cbn [map app List.concat run raised_now step_instr get_handle tmp_file
         set_handle files csv_file later].
    rewrite IH, encode_utf8_app, app_assoc. reflexivity.
Qed.

(** The [with] block leaves the whole text in the temporary file and the
    file closed. *)
Lemma with_open_write_run (tmp : path) (body : list str) (f : fs)
      (c t : option open_file) :
  run None (with_open_write tmp body) (mkWorld f c t)
  = (mkWorld (fs_set (fs_set f tmp (Some [])) tmp
                     (Some (encode_utf8 (List.concat body))))
             c None, None).
Proof.
  unfold with_open_write.
  cbn [run raised_now step_instr set_handle set_files files csv_file tmp_file
       later].
  rewrite run_writes.
  cbn [run raised_now step_instr flush_handle get_handle set_handle set_files
       files csv_file tmp_file later bind].
  rewrite fs_set_same. reflexivity.
Qed.

Lemma json_text_concat (data : sample) :
  List.concat (json_chunks data ++ [newline]) = json_text data.
Proof.
  unfold json_text. rewrite concat_app. cbn [List.concat].
  now rewrite app_nil_r.
Qed.

Lemma atomic_write_json_run (p : path) (data : sample) (f : fs)
      (c t : option open_file) :
  run None (atomic_write_json p data) (mkWorld f c t)
  = (mkWorld (published f p data) c None, None).
Proof.
  unfold atomic_write_json. cbv zeta.
  rewrite run_app, with_open_write_run, json_text_concat.
  replace (Nat.iter _ later None) with (@None (nat * exn)).
  2:{ induction (List.length _); simpl; [reflexivity | now rewrite <- IHn]. }
  cbn [run raised_now step_instr set_files files csv_file tmp_file].
  rewrite fs_set_same. reflexivity.
Qed.

Lemma published_at (f : fs) (p : path) (data : sample) :
  published f p data p = Some (encode_utf8 (json_text data)).
Proof.
  unfold published.
  rewrite fs_set_other by (intros H; symmetry in H; revert H; apply tmp_of_neq).
  apply fs_set_same.
Qed.

Lemma published_tmp (f : fs) (p : path) (data : sample) :
  published f p data (tmp_of p) = None.
Proof. unfold published. apply fs_set_same. Qed.

Lemma published_elsewhere (f : fs) (p q : path) (data : sample) :
  q <> p -> q <> tmp_of p -> published f p data q = f q.
Proof.
  intros H1 H2. unfold published. now rewrite !fs_set_other.
Qed.

Lemma published_twice (f : fs) (p : path) (data : sample) (q : path) :
  published (published f p data) p data q = published f p data q.
Proof.
  destruct (String.eqb_spec q p) as [->|Hp].
  - now rewrite !published_at.
  - destruct (String.eqb_spec q (tmp_of p)) as [->|Ht].
    + now rewrite !published_tmp.
    + now rewrite !published_elsewhere.
Qed.

(** ** The round trip and the idempotence *)

(** Claim C8.  The bytes [atomic_write_json] leaves at the published
    path for the sample [ts = 1.5], [aTA = 0.42], [aGAS = 0.77],
    [valid = true] decode, with [parse_packet], to that sample, field for
    field. *)
Theorem publish_decode_round_trip (p : path) (w : world) :
  exists bytes,
    files (fst (run None (atomic_write_json p sample_1) w)) p = Some bytes
    /\ parse_packet bytes = Ok sample_1.
Proof.
  destruct w as [f c t]. rewrite atomic_write_json_run.
  exists (encode_utf8 (json_text sample_1)). split.
  - apply published_at.
  - vm_compute. reflexivity.
Qed.

(** Claim C9.  Publishing a sample a second time leaves the published
    file, and the whole disk, as the first publication left it. *)
Theorem publish_idempotent (p : path) (data : sample) (w : world) :
  let once := fst (run None (atomic_write_json p data) w) in
  let twice := fst (run None (atomic_write_json p data) once) in
  files twice p = files once p
  /\ files once p = Some (encode_utf8 (json_text data))
  /\ (forall q, files twice q = files once q)
  /\ snd (run None (atomic_write_json p data) once) = None.
Proof.
  destruct w as [f c t]. cbv zeta.
  rewrite atomic_write_json_run. cbn [fst].
  rewrite atomic_write_json_run. cbn [fst snd files]. repeat split.
  - apply published_twice.
  - apply published_at.
  - apply published_twice.
Qed.

(** ** Atomicity of the publication *)

Lemma p_neq_tmp (p : path) : p <> tmp_of p.
Proof. intros H. symmetry in H. revert H. apply tmp_of_neq. Qed.

Lemma flush_tmp_keeps (p : path) (old : option (list byte)) (w w' : world) :
  block_inv p old w -> flush_handle w TmpFile = Ok w' ->
  files w' p = old /\ csv_file w' = csv_file w.
Proof.
  intros [Hf Ht] H. unfold flush_handle in H. cbn [get_handle] in H.
  destruct Ht as [Ht | [buf Ht]]; rewrite Ht in H; [discriminate |].
  inversion H; subst w'; clear H. cbn [set_handle set_files files csv_file].
  split; [| reflexivity]. rewrite fs_set_other by apply p_neq_tmp. assumption.
Qed.

Lemma with_block_keeps (p : path) (old : option (list byte)) (body : list str) :
  forall i w, In i (with_open_write (tmp_of p) body) -> block_inv p old w ->
              (forall w', step_instr w i = Ok w' -> block_inv p old w')
              /\ block_inv p old (unwind i w).
Proof.
  intros i w Hi Hw.
  assert (Hun : forall j, (forall h, j <> Close h) -> block_inv p old (unwind j w)).
  { intros j Hj. assert (E : unwind j w = match flush_handle w TmpFile with
                                           | Ok w' => set_handle w' TmpFile None
                                           | Raise _ => w
                                           end).
    { destruct j; try reflexivity. exfalso. now apply (Hj h). }
    rewrite E. destruct (flush_handle w TmpFile) as [w'|e] eqn:F; [| assumption].
    destruct (flush_tmp_keeps _ _ _ _ Hw F) as [H1 _].
    split; [exact H1 | now left]. }
  unfold with_open_write in Hi. destruct Hi as [Hi | Hi].
  - subst i. split; [| apply Hun; discriminate].
    intros w' H. cbn [step_instr] in H. inversion H; subst w'; clear H.
    destruct Hw as [Hf _]. split.
    + cbn [set_handle set_files files]. rewrite fs_set_other by apply p_neq_tmp.
      assumption.
    + right. eexists. reflexivity.
  - apply in_app_or in Hi. destruct Hi as [Hi | [Hi | []]].
    + apply in_map_iff in Hi. destruct Hi as [s [Hs _]]. subst i.
      split; [| apply Hun; discriminate].
      intros w' H. cbn [step_instr get_handle] in H.
      destruct Hw as [Hf [Ht | [buf Ht]]]; rewrite Ht in H; [discriminate |].
      inversion H; subst w'; clear H. split; [exact Hf |].
      right. eexists. reflexivity.
    + subst i. split.
      * intros w' H. cbn [step_instr bind] in H.
        destruct (flush_handle w TmpFile) as [w1|e] eqn:F; [| discriminate].
        cbn [bind] in H. inversion H; subst w'; clear H.
        destruct (flush_tmp_keeps _ _ _ _ Hw F) as [H1 _].
        split; [exact H1 | now left].
      * destruct Hw as [Hf _]. split; [exact Hf | now left].
Qed.


Lemma Forall_last {A : Type} (P : A -> Prop) (l : list A) (d : A) :
  Forall P l -> P d -> P (last l d).
Proof.
  induction 1 as [|x l Hx Hl IH]; intros Hd; [assumption |].
  destruct l; [assumption |]. apply IH. assumption.
Qed.

Lemma later_iter_none (n : nat) : Nat.iter n later None = None.
Proof. induction n; simpl; [reflexivity | now rewrite IHn]. Qed.


(** ** What [parse_packet] raises *)

Lemma decode_utf8_raises (raw : list byte) (e : exn) :
  decode_utf8 raw = Raise e -> e = UnicodeDecodeError.
Proof. unfold decode_utf8. destruct (utf8_decode _); congruence. Qed.

Lemma json_loads_raises (text : str) (e : exn) :
  json_loads text = Raise e -> e = JSONDecodeError.
Proof.
  unfold json_loads. destruct (lex _ _); [| congruence].
  destruct (parse _ _ _); congruence.
Qed.

Lemma field_raises (msg : pyval) (k : string) (e : exn) :
  field msg k = Raise e -> e = KeyError \/ e = TypeError.
Proof.
  unfold field, getitem. destruct msg; try (intros H; inversion H; now right).
  destruct (dict_get _ _); intros H; inversion H. now left.
Qed.

Lemma float_of_int_raises (n : Z) (e : exn) :
  float_of_int n = Raise e -> e = OverflowError.
Proof.
  unfold float_of_int. destruct (n =? 0); [congruence |].
  destruct (round_ratio _ _) as [[m ex]|]; congruence.
Qed.

Lemma float_of_str_raises (s : str) (e : exn) :
  float_of_str s = Raise e -> e = ValueError.
Proof.
  unfold float_of_str. destruct (strip_underscores _ _); [| congruence].
  destruct (parse_float _); congruence.
Qed.

Lemma to_float_raises (v : pyval) (e : exn) :
  to_float v = Raise e -> e = ValueError \/ e = OverflowError.
Proof.
  destruct v; cbn [to_float]; intros H;
    try (inversion H; now left);
    try (apply float_of_int_raises in H; now right).
  apply float_of_str_raises in H. now left.
Qed.

Lemma to_bool_raises (v : pyval) (e : exn) :
  to_bool v = Raise e -> e = ValueError.
Proof. destruct v; cbn [to_bool]; congruence. Qed.

Lemma bind_raise {A B} (r : result A) (k : A -> result B) (e : exn) :
  bind r k = Raise e -> r = Raise e \/ exists a, r = Ok a /\ k a = Raise e.
Proof.
  destruct r; simpl; intros H; [right; eauto | left; congruence].
Qed.

(** Whatever [parse_packet] raises is an [Exception]: the handler of line
    151 catches it. *)
Lemma parse_packet_raises (raw : list byte) (e : exn) :
  parse_packet raw = Raise e -> is_Exception e = true.
Proof.
  unfold parse_packet. intros H.
  repeat (apply bind_raise in H; destruct H as [H | [? [_ H]]];
          [ first [ apply decode_utf8_raises in H
                  | apply json_loads_raises in H
                  | apply field_raises in H; destruct H as [H | H]
                  | apply to_float_raises in H; destruct H as [H | H]
                  | apply to_bool_raises in H ];
            subst e; reflexivity | ]).
  discriminate H.
Qed.



(** Conversely, a packet that [parse_packet] rejects is malformed in one
    of the four ways. *)
Lemma raises_malformed (raw : list byte) (e : exn) :
  parse_packet raw = Raise e -> malformed raw.
Proof.
  unfold parse_packet. intros H.
  destruct (decode_utf8 raw) as [text|e0] eqn:Hd.
  2:{ apply bad_encoding. now rewrite (decode_utf8_raises _ _ Hd) in Hd. }
  cbn [bind] in H. destruct (json_loads text) as [msg|e0] eqn:Hj.
  2:{ apply (bad_syntax raw text); [exact Hd |].
      now rewrite (json_loads_raises _ _ Hj) in Hj. }
  cbn [bind] in H.
  assert (step : forall k (kont : pyval -> result sample),
             In k required ->
             (v <- field msg k ;; kont v) = Raise e ->
             (forall v, field msg k = Ok v -> coerces k v = true ->
                        kont v = Raise e -> malformed raw) ->
             malformed raw).
  { intros k kont Hk Hr Hnext. destruct (field msg k) as [v|e0] eqn:Hf.
    - destruct (coerces k v) eqn:Hc.
      + apply (Hnext v eq_refl Hc Hr).
      + apply (bad_value raw text msg k v); auto.
    - apply (missing_field raw text msg k); auto. now rewrite Hf. }
  unfold required in step. cbn [In] in step.
  eapply step; [| exact H |]; [auto |]. clear H. intros v1 _ C1 H. cbv beta in H.
  unfold coerces in C1. cbn [String.eqb Ascii.eqb Bool.eqb] in C1.
  destruct (to_float v1) as [f1|]; [| discriminate]. cbn [bind] in H.
  eapply step; [| exact H |]; [auto |]. clear H. intros v2 _ C2 H. cbv beta in H.
  unfold coerces in C2. cbn [String.eqb Ascii.eqb Bool.eqb] in C2.
  destruct (to_float v2) as [f2|]; [| discriminate]. cbn [bind] in H.
  eapply step; [| exact H |]; [auto 6 |]. clear H. intros v3 _ C3 H. cbv beta in H.
  unfold coerces in C3. cbn [String.eqb Ascii.eqb Bool.eqb] in C3.
  destruct (to_float v3) as [f3|]; [| discriminate]. cbn [bind] in H.
  eapply step; [| exact H |]; [auto 6 |]. clear H. intros v4 _ C4 H. cbv beta in H.
  unfold coerces in C4. cbn [String.eqb Ascii.eqb Bool.eqb] in C4.
  destruct (to_bool v4) as [b4|]; [| discriminate]. discriminate H.
Qed.

(** ** One iteration *)


(** ** The writes of an accepted packet *)

Lemma write_flush_run (row : str) (p : path) (f : fs) (t : option open_file) :
  run None [Write CsvFile row; Flush CsvFile] (mkWorld f (Some (p, [])) t)
  = (mkWorld (fs_set f p (Some (content f p ++ encode_utf8 row)))
             (Some (p, [])) t, None).
Proof. reflexivity. Qed.

Lemma log_then_publish_run (row : str) (p q : path) (data : sample) (f : fs)
      (t : option open_file) :
  run None ([Write CsvFile row; Flush CsvFile] ++ atomic_write_json q data)
      (mkWorld f (Some (p, [])) t)
  = (mkWorld (published (fs_set f p (Some (content f p ++ encode_utf8 row)))
                        q data)
             (Some (p, [])) None, None).
Proof.
  rewrite run_app, write_flush_run, later_iter_none.
  apply atomic_write_json_run.
Qed.

Lemma persist_run (a : args) (recv_ts : float) (emg : sample) (f : fs)
      (t : option open_file) :
  run None (persist a recv_ts emg) (mkWorld f (Some (csv_path a, [])) t)
  = (mkWorld (persisted a f recv_ts emg) (Some (csv_path a, [])) None, None).
Proof. apply log_then_publish_run. Qed.

Lemma persisted_log (a : args) (f : fs) (recv_ts : float) (emg : sample) :
  persisted a f recv_ts emg (csv_path a)
  = Some (content f (csv_path a) ++ encode_utf8 (csv_row recv_ts emg)).
Proof.
  unfold persisted.
  rewrite published_elsewhere by (apply csv_latest_neq || apply csv_tmp_neq).
  apply fs_set_same.
Qed.

Lemma persisted_latest (a : args) (f : fs) (recv_ts : float) (emg : sample) :
  persisted a f recv_ts emg (latest_path a) = Some (encode_utf8 (json_text emg)).
Proof. unfold persisted. apply published_at. Qed.

(** ** The counters *)

(** Claim C10.  In the iteration of a packet that decodes: when the
    writes of the log (with its flush) and of the published file all
    complete, [ok] is one higher, [last_sample] is the sample, and the
    disk is the one these writes leave, the row at the end of the log and
    the sample published; when one of them raises, [ok], [bad] and
    [last_sample] are as they were, whether the exception leaves the loop
    or not. *)
Theorem accepted_counted_after_writes (timeout_alias : bool) (a : args)
        (st : loop_state) (datagram : list byte) (recv_ts : float)
        (flt : fault) (emg : sample) :
  parse_packet (firstn (max_packet a) datagram) = Ok emg ->
  let out := iteration timeout_alias a st (Packet datagram recv_ts flt) in
  let st' := state_of out in
  match snd (run flt (persist a recv_ts emg) (disk st)) with
  | None =>
      out = Running st'
      /\ ok st' = ok st + 1 /\ last_sample st' = Some emg /\ bad st' = bad st
      /\ run None (persist a recv_ts emg) (disk st) = (disk st', None)
      /\ (csv_file (disk st) = Some (csv_path a, []) ->
          files (disk st') (csv_path a)
          = Some (content (files (disk st)) (csv_path a)
                    ++ encode_utf8 (csv_row recv_ts emg))
          /\ csv_file (disk st') = Some (csv_path a, [])
          /\ files (disk st') (latest_path a)
             = Some (encode_utf8 (json_text emg)))
  | Some e =>
      ok st' = ok st /\ last_sample st' = last_sample st /\ bad st' = bad st
      /\ (out = Stopped e st' \/ out = Running st')
  end.
Proof.
  intros P. cbv zeta. unfold iteration. rewrite P.
  destruct (run flt (persist a recv_ts emg) (disk st)) as [w' [e|]] eqn:R;
    cbn [snd].
  - unfold outer_handler. destruct (is_socket_timeout timeout_alias e);
      cbn [state_of ok bad last_sample]; auto.
  - cbn [state_of ok bad last_sample disk].
    destruct (run_completes (persist a recv_ts emg) flt (disk st)) as [R0 _];
      [now rewrite R |].
    rewrite R in R0. do 4 (split; [reflexivity |]). split; [auto |].
    intros Hc. destruct (disk st) as [f c t]. cbn [csv_file] in Hc. subst c.
    rewrite persist_run in R0. inversion R0. cbn [files csv_file].
    split; [apply persisted_log | split; [reflexivity | apply persisted_latest]].
Qed.

(** ** Runs of the loop *)

Lemma last_shift {A : Type} (l : list A) :
  forall x y, last (x :: l) y = last l x.
Proof.
  induction l as [|z l IH]; intros x y; [reflexivity |].
  change (last (z :: l) y = last (z :: l) x). now rewrite !IH.
Qed.

Lemma last_of_cons {A : Type} (x : A) (l : list A) :
  last_of (x :: l) = Some (match last_of l with Some y => y | None => x end).
Proof.
  destruct l as [|y l]; [reflexivity |]. cbn [last_of]. f_equal.
  apply last_shift.
Qed.

Lemma socket_timeout_caught (timeout_alias : bool) :
  is_socket_timeout timeout_alias (socket_timeout timeout_alias) = true.
Proof. destruct timeout_alias; reflexivity. Qed.

Lemma rows_cons (r : float * sample) (l : list (float * sample)) :
  rows (r :: l) = csv_row (fst r) (snd r) ++ rows l.
Proof. reflexivity. Qed.

(** Through calm events the loop keeps running; the log grows by the
    rows of the accepted samples, in order, and the published file and
    [last_sample] follow the last of them. *)
Lemma main_loop_calm (timeout_alias : bool) (a : args) (evs : list event) :
  forall (st : loop_state) (c : list byte),
    csv_file (disk st) = Some (csv_path a, []) ->
    files (disk st) (csv_path a) = Some c ->
    Forall (calm timeout_alias) evs ->
    exists st',
      main_loop timeout_alias a evs st = Running st'
      /\ files (disk st') (csv_path a)
         = Some (c ++ encode_utf8 (rows (accepted a evs)))
      /\ ok st' = ok st + Z.of_nat (List.length (accepted a evs))
      /\ last_sample st'
         = match last_of (accepted a evs) with
           | Some r => Some (snd r)
           | None => last_sample st
           end
      /\ files (disk st') (latest_path a)
         = match last_of (accepted a evs) with
           | Some r => Some (encode_utf8 (json_text (snd r)))
           | None => files (disk st) (latest_path a)
           end.
Proof.
  induction evs as [|ev evs IH]; intros st c Hh Hc Hcalm.
  - exists st. cbn [main_loop accepted rows List.concat map last_of List.length].
    unfold encode_utf8. cbn [flat_map]. rewrite app_nil_r, Z.add_0_r. auto.
  - inversion Hcalm as [|? ? Hev Hrest]; subst.
    destruct ev as [e | datagram recv_ts flt]; cbn [calm] in Hev; subst.
    + cbn [main_loop iteration accepted]. unfold outer_handler.
      rewrite socket_timeout_caught. apply IH; assumption.
    + cbn [main_loop iteration accepted].
      destruct (parse_packet (firstn (max_packet a) datagram)) as [emg|e] eqn:P.
      * destruct st as [n b l [f cf tf]]. cbn [disk csv_file files] in *.
        subst cf. rewrite persist_run.
        destruct (IH (mkLoop (n + 1) b (Some emg)
                             (mkWorld (persisted a f recv_ts emg)
                                      (Some (csv_path a, [])) None))
                     (c ++ encode_utf8 (csv_row recv_ts emg)))
          as (st' & H1 & H2 & H3 & H4 & H5); [reflexivity | | assumption |].
        { cbn [disk files]. rewrite persisted_log. unfold content.
          now rewrite Hc. }
        exists st'. cbn [disk files ok last_sample] in *.
        split; [exact H1 |]. rewrite rows_cons, encode_utf8_app, app_assoc.
        split; [exact H2 |]. split; [cbn [List.length]; lia |].
        rewrite last_of_cons. cbn [fst snd].
        destruct (last_of (accepted a evs)) as [r|].
        -- auto.
        -- split; [exact H4 |]. rewrite H5. apply persisted_latest.
      * rewrite (parse_packet_raises _ _ P).
        destruct (IH (mkLoop (ok st) (bad st + 1) (last_sample st) (disk st)) c)
          as (st' & H); auto.
        exists st'. exact H.
Qed.

Lemma open_log_run (a : args) (f : fs) (c t : option open_file) :
  f (csv_path a) = None ->
  run None (open_log a true) (mkWorld f c t)
  = (mkWorld (fs_set (fs_set f (csv_path a) (Some [])) (csv_path a)
                     (Some (encode_utf8 csv_header)))
             (Some (csv_path a, [])) t, None).
Proof.
  intros H. unfold open_log. generalize csv_header. intros hdr.
  cbn [run raised_now later step_instr flush_handle get_handle set_handle
       set_files files csv_file tmp_file].
  rewrite H. cbn [set_files set_handle files csv_file tmp_file].
  rewrite fs_set_same. reflexivity.
Qed.

(** The header goes with the creation of the file: a log that exists,
    even empty, gets none. *)
Example existing_empty_log_gets_no_header :
  let w := mkWorld (fs_set no_files (csv_path args_1) (Some [])) None None in
  exists st, start args_1 None w = Ok st
             /\ files (disk st) (csv_path args_1) = Some [].
Proof. cbv zeta. eexists. split; vm_compute; reflexivity. Qed.


(** ** The coercions *)

Lemma str_eqb_eq (s t : str) : str_eqb s t = true <-> s = t.
Proof.
  revert t. induction s as [|x s IH]; intros [|y t]; cbn [str_eqb];
    try (split; [discriminate | discriminate]); [tauto |].
  rewrite andb_true_iff, N.eqb_eq, IH. split.
  - intros [-> ->]. reflexivity.
  - intros H. inversion H. auto.
Qed.

Lemma truthy_spec (s : str) :
  existsb (str_eqb s) truthy = true <-> In s truthy.
Proof.
  rewrite existsb_exists. split.
  - intros [t [Ht E]]. apply str_eqb_eq in E. now subst t.
  - intros H. exists s. split; [assumption | now apply str_eqb_eq].
Qed.

(** Claim C5.  [to_bool] returns a boolean as it is, maps an [int] and a
    [float] to whether they differ from zero, and maps a string to true
    exactly when the string, trimmed and lowered, is one of [1], [true],
    [yes], [y], to false otherwise; [YES] gives true and [false] gives
    false. *)
Theorem to_bool_coercion :
  (forall b, to_bool (PyBool b) = Ok b)
  /\ (forall n, to_bool (PyInt n) = Ok (negb (n =? 0)))
  /\ (forall f, to_bool (PyFloat f) = Ok (negb (f =? 0)%float))
  /\ (forall s, to_bool (PyStr s) = Ok true <-> In (lower (strip s)) truthy)
  /\ (forall s, to_bool (PyStr s) = Ok false <-> ~ In (lower (strip s)) truthy)
  /\ to_bool (PyStr (str_of "YES")) = Ok true
  /\ to_bool (PyStr (str_of "false")) = Ok false.
Proof.
  repeat split; try reflexivity; cbn [to_bool].
  - intros H. apply truthy_spec. now inversion H.
  - intros H. apply truthy_spec in H. now rewrite H.
  - intros H I. apply truthy_spec in I. rewrite I in H. discriminate.
  - intros H. destruct (existsb _ _) eqn:E; [| reflexivity].
    exfalso. apply H. now apply truthy_spec.
Qed.

Lemma to_bool_coercion_witness :
  In (lower (strip (str_of "  Yes "))) truthy
  /\ to_bool (PyStr (str_of "  Yes ")) = Ok true.
Proof.
  assert (H : In (lower (strip (str_of "  Yes "))) truthy).
  { vm_compute. right. right. left. reflexivity. }
  split; [exact H |].
  exact (proj2 (proj1 (proj2 (proj2 (proj2 to_bool_coercion)))
                      (str_of "  Yes ")) H).
Defined.

(** ** [float(n)] overflows exactly from [int_overflow_bound] on *)




(** ** The numeric coercion *)




(** ** Failures of the writes *)

(** An exception of the writes that is not a [socket.timeout] leaves the
    loop, and [main], with the counters as they were. *)
Lemma write_error_leaves_loop (timeout_alias : bool) (a : args)
      (st : loop_state) (datagram : list byte) (recv_ts : float)
      (emg : sample) (k : nat) (e : exn) (evs : list event) :
  parse_packet (firstn (max_packet a) datagram) = Ok emg ->
  snd (run None (persist a recv_ts emg) (disk st)) = None ->
  (k < List.length (persist a recv_ts emg))%nat ->
  is_socket_timeout timeout_alias e = false ->
  exists w',
    iteration timeout_alias a st (Packet datagram recv_ts (Some (k, e)))
    = Stopped e (mkLoop (ok st) (bad st) (last_sample st) w')
    /\ main_loop timeout_alias a (Packet datagram recv_ts (Some (k, e)) :: evs) st
       = Stopped e (mkLoop (ok st) (bad st) (last_sample st) w')
    /\ (e <> KeyboardInterrupt ->
        fst (leave e (mkLoop (ok st) (bad st) (last_sample st) w')) = Some e).
Proof.
  intros P R Hk He.
  pose proof (fault_fires _ k e (disk st) R Hk) as F.
  cbn [main_loop]. unfold iteration. rewrite P.
  destruct (run (Some (k, e)) (persist a recv_ts emg) (disk st)) as [w' r] eqn:E.
  cbn [snd] in F. subst r. unfold outer_handler. rewrite He.
  exists w'. repeat split. intros Hne. unfold leave. cbn [fst].
  destruct e; congruence.
Qed.

(** An [OSError] of the disk that is not a [TimeoutError] is never taken
    for the timeout of the socket. *)
Lemma disk_error_not_socket_timeout (timeout_alias : bool) (e : exn) :
  is_OSError e = true -> e <> TimeoutError -> e <> LegacySocketTimeout ->
  is_socket_timeout timeout_alias e = false.
Proof. destruct e; cbn; congruence. Qed.

(** Such an exception, raised by a write of the first packet, leaves
    [main]. *)
Lemma write_error_leaves_main (timeout_alias : bool) (a : args) (w : world)
      (datagram : list byte) (recv_ts : float) (emg : sample) (k : nat)
      (e : exn) (evs : list event) :
  files w (csv_path a) = None ->
  parse_packet (firstn (max_packet a) datagram) = Ok emg ->
  (k < List.length (persist a recv_ts emg))%nat ->
  is_socket_timeout timeout_alias e = false ->
  e <> KeyboardInterrupt ->
  exists w',
    main timeout_alias a None w (Packet datagram recv_ts (Some (k, e)) :: evs)
    = Raised e w'.
Proof.
  intros Hnew P Hk He Hne. destruct w as [f c t]. cbn [files] in Hnew.
  unfold main, start. cbn [files]. rewrite Hnew, open_log_run by assumption.
  set (st0 := mkLoop 0 0 None _).
  destruct (write_error_leaves_loop timeout_alias a st0 datagram recv_ts emg
              k e evs P) as (w' & _ & H & _); [| exact Hk | exact He |].
  { unfold st0. cbn [disk]. now rewrite persist_run. }
  rewrite H. unfold leave.
  destruct e; try (eexists; reflexivity). congruence.
Qed.

(** Where [socket.timeout] is [TimeoutError], a [TimeoutError] of any of
    the writes is passed over: the loop goes on, the packet uncounted. *)
Lemma timeout_error_passed_over (a : args) (st : loop_state)
      (datagram : list byte) (recv_ts : float) (emg : sample) (k : nat) :
  parse_packet (firstn (max_packet a) datagram) = Ok emg ->
  snd (run None (persist a recv_ts emg) (disk st)) = None ->
  (k < List.length (persist a recv_ts emg))%nat ->
  exists w',
    iteration true a st (Packet datagram recv_ts (Some (k, TimeoutError)))
    = Running (mkLoop (ok st) (bad st) (last_sample st) w').
Proof.
  intros P R Hk.
  pose proof (fault_fires _ k TimeoutError (disk st) R Hk) as F.
  unfold iteration. rewrite P.
  destruct (run (Some (k, TimeoutError)) (persist a recv_ts emg) (disk st))
    as [w' r] eqn:E.
  cbn [snd] in F. subst r. exists w'. reflexivity.
Qed.

(** Claim C7, where the code departs from it.  With [socket.timeout]
    being [TimeoutError], a [TimeoutError] raised by the flush of the log
    is caught by the handler meant for the socket: the loop goes on, the
    packet is not counted and nothing is published.  Where the two
    classes are distinct the same exception leaves the loop. *)
Theorem flush_timeout_swallowed :
  let ev := Packet packet_1 1730707200.5 (Some (1%nat, TimeoutError)) in
  let out := iteration true args_1 state_1 ev in
  parse_packet packet_1 = Ok sample_1
  /\ out = Running (state_of out)
  /\ ok (state_of out) = ok state_1
  /\ last_sample (state_of out) = None
  /\ files (disk (state_of out)) (csv_path args_1) = Some (encode_utf8 csv_header)
  /\ files (disk (state_of out)) (latest_path args_1) = None
  /\ (exists w',
         iteration false args_1 state_1 ev
         = Stopped TimeoutError (mkLoop 3 1 None w')).
Proof.
  cbv zeta. repeat split; try (vm_compute; reflexivity).
  eexists. vm_compute. reflexivity.
Qed.

(** ** The theorems at concrete inputs *)

Lemma decoded_activations_clamped_witness :
  parse_packet packet_1 = Ok sample_1
  /\ in_unit (aTA sample_1) /\ in_unit (aGAS sample_1).
Proof.
  assert (H : parse_packet packet_1 = Ok sample_1) by (vm_compute; reflexivity).
  split; [exact H |].
  exact (proj1 decoded_activations_clamped packet_1 sample_1 H).
Defined.





Lemma accepted_counted_after_writes_witness :
  parse_packet (firstn (max_packet args_1) packet_1) = Ok sample_1
  /\ ok (state_of (iteration true args_1 state_1
                     (Packet packet_1 1730707200.5 None))) = 4
  /\ ok (state_of (iteration true args_1 state_1
                     (Packet packet_1 1730707200.5 (Some (20%nat, OSError 28)))))
     = 3.
Proof.
  assert (H : parse_packet (firstn (max_packet args_1) packet_1) = Ok sample_1)
    by (vm_compute; reflexivity).
  split; [exact H |]. split.
  - pose proof (accepted_counted_after_writes true args_1 state_1 packet_1
                  1730707200.5 None sample_1 H) as T.
    cbv zeta in T.
    replace (snd (run None (persist args_1 1730707200.5 sample_1) (disk state_1)))
      with (@None exn) in T by (vm_compute; reflexivity).
    destruct T as (_ & T & _). exact T.
  - pose proof (accepted_counted_after_writes true args_1 state_1 packet_1
                  1730707200.5 (Some (20%nat, OSError 28)) sample_1 H) as T.
    cbv zeta in T.
    replace (snd (run (Some (20%nat, OSError 28))
                      (persist args_1 1730707200.5 sample_1) (disk state_1)))
      with (Some (OSError 28)) in T by (vm_compute; reflexivity).
    destruct T as (T & _). exact T.
Defined.

(* ================================================================== *)
(** * Further properties *)

(** ** [clamp01] *)

Lemma Pos_compare_cont_Eq (p q : positive) :
  Pos.compare_cont Eq p q = Eq -> p = q.
Proof.
  rewrite Pos.compare_cont_spec. intros H. apply Pos.compare_eq.
  destruct (p ?= q)%positive; [reflexivity | discriminate | discriminate].
Qed.

Lemma at_most_one_not_below (x : float) :
  (x <=? 1)%float = true -> (x <? 1)%float = false -> x = 1%float.
Proof.
  rewrite leb_spec, ltb_spec, Prim2SF_one. unfold SFleb, SFltb. intros H1 H2.
  apply Prim2SF_inj. rewrite Prim2SF_one. revert H1 H2.
  destruct (Prim2SF x) as [s|s| |s m e]; try destruct s;
    cbv beta iota delta [SFcompare]; try discriminate.
  destruct (e ?= -52) eqn:E; try discriminate.
  apply Z.compare_eq in E. subst e.
  destruct (Pos.compare_cont Eq m 4503599627370496) eqn:C; try discriminate.
  apply Pos_compare_cont_Eq in C. now subst m.
Qed.

(** Inside the interval, zero apart, [clamp01] changes nothing. *)
Theorem clamp01_keeps_inside (x : float) :
  (0 <? x)%float = true -> (x <=? 1)%float = true -> clamp01 x = x.
Proof.
  intros H0 H1. destruct (x <? 1)%float eqn:E.
  - now apply clamp01_inside.
  - rewrite (at_most_one_not_below x H1 E). vm_compute. reflexivity.
Qed.

Lemma clamp01_keeps_inside_witness :
  (0 <? 0.42)%float = true /\ (0.42 <=? 1)%float = true
  /\ clamp01 0.42 = 0.42%float.
Proof.
  assert (H0 : (0 <? 0.42)%float = true) by (vm_compute; reflexivity).
  assert (H1 : (0.42 <=? 1)%float = true) by (vm_compute; reflexivity).
  split; [exact H0 |]. split; [exact H1 |].
  exact (clamp01_keeps_inside 0.42 H0 H1).
Defined.

(** Clamping twice is clamping once. *)
Theorem clamp01_idempotent (x : float) : clamp01 (clamp01 x) = clamp01 x.
Proof.
  destruct (x <? 1)%float eqn:E1.
  - destruct (0 <? x)%float eqn:E0.
    + now rewrite !(clamp01_inside x E0 E1).
    + assert (H : clamp01 x = 0%float).
      { unfold clamp01, py_max, py_min. now rewrite E1, E0. }
      rewrite H. vm_compute. reflexivity.
  - assert (H : clamp01 x = 1%float).
    { unfold clamp01, py_max, py_min. rewrite E1. reflexivity. }
    rewrite H. vm_compute. reflexivity.
Qed.

(** ** White space and case in the coercions *)

Lemma lstrip_pad (pad s : str) : all_space pad -> lstrip (pad ++ s) = lstrip s.
Proof.
  induction 1 as [|c pad Hc _ IH]; [reflexivity |].
  cbn [app lstrip]. now rewrite Hc.
Qed.

Lemma lstrip_all_space (pad : str) : all_space pad -> lstrip pad = [].
Proof.
  intros H. rewrite <- (app_nil_r pad). now rewrite lstrip_pad.
Qed.

Lemma lstrip_app (s t : str) :
  lstrip (s ++ t) = lstrip s ++ t \/ (lstrip s = [] /\ lstrip (s ++ t) = lstrip t).
Proof.
  induction s as [|c s IH]; [right; auto |].
  cbn [app lstrip]. destruct (is_space c); [exact IH | left; reflexivity].
Qed.

Lemma all_space_rev (pad : str) : all_space pad -> all_space (rev pad).
Proof. apply Forall_rev. Qed.

Lemma rstrip_pad (s pad : str) : all_space pad -> rstrip (s ++ pad) = rstrip s.
Proof.
  intros H. unfold rstrip. rewrite rev_app_distr.
  now rewrite lstrip_pad by (apply all_space_rev; exact H).
Qed.

(** White space around a string does not count. *)
Lemma strip_pad (pad1 s pad2 : str) :
  all_space pad1 -> all_space pad2 -> strip (pad1 ++ s ++ pad2) = strip s.
Proof.
  intros H1 H2. unfold strip. rewrite lstrip_pad by exact H1.
  destruct (lstrip_app s pad2) as [E | [E1 E2]].
  - rewrite E. now apply rstrip_pad.
  - rewrite E2, E1. now rewrite lstrip_all_space.
Qed.

(** Both coercions read a string without the white space around it. *)
Theorem coercions_ignore_surrounding_space (pad1 s pad2 : str) :
  all_space pad1 -> all_space pad2 ->
  to_float (PyStr (pad1 ++ s ++ pad2)) = to_float (PyStr s)
  /\ to_bool (PyStr (pad1 ++ s ++ pad2)) = to_bool (PyStr s).
Proof.
  intros H1 H2. cbn [to_float to_bool]. now rewrite strip_pad.
Qed.

Lemma coercions_ignore_surrounding_space_witness :
  all_space (str_of "  ") /\ all_space [9%N; 10%N]
  /\ to_float (PyStr (str_of "  " ++ str_of "0.5" ++ [9%N; 10%N])) = Ok 0.5%float.
Proof.
  assert (H1 : all_space (str_of "  ")) by (repeat constructor).
  assert (H2 : all_space [9%N; 10%N]) by (repeat constructor).
  split; [exact H1 |]. split; [exact H2 |].
  rewrite (proj1 (coercions_ignore_surrounding_space
                    (str_of "  ") (str_of "0.5") [9%N; 10%N] H1 H2)).
  vm_compute. reflexivity.
Defined.

Lemma same_letter_cases (c d : char) :
  same_letter c d ->
  c = d \/ (in_range 65 90 c = true /\ d = (c + 32)%N)
  \/ (in_range 65 90 d = true /\ c = (d + 32)%N).
Proof.
  unfold same_letter, ascii_lower_char, in_range.
  destruct ((65 <=? c)%N && (c <=? 90)%N) eqn:Ec;
    destruct ((65 <=? d)%N && (d <=? 90)%N) eqn:Ed; intros H.
  - left. lia.
  - right. left. split; [reflexivity | now symmetry].
  - right. right. split; [reflexivity | exact H].
  - left. exact H.
Qed.

Lemma same_letter_space (c d : char) :
  same_letter c d -> is_space c = is_space d.
Proof.
  intros H. destruct (same_letter_cases c d H) as [-> | [[R ->] | [R ->]]];
    [reflexivity | |];
    unfold in_range in R; apply andb_true_iff in R; destruct R as [R1 R2];
    apply N.leb_le in R1; apply N.leb_le in R2;
    unfold is_space, in_range;
    repeat match goal with
      | |- context [(?x <=? ?y)%N] => destruct (N.leb_spec x y); try lia
      | |- context [(?x =? ?y)%N] => destruct (N.eqb_spec x y); try lia
      end; reflexivity.
Qed.

Lemma same_letter_lower (c d : char) :
  same_letter c d -> lower_char c = lower_char d.
Proof.
  intros H. destruct (same_letter_cases c d H) as [-> | [[R ->] | [R ->]]];
    [reflexivity | |];
    unfold in_range in R; apply andb_true_iff in R; destruct R as [R1 R2];
    apply N.leb_le in R1; apply N.leb_le in R2;
    unfold lower_char, in_range;
    repeat match goal with
      | |- context [(?x <=? ?y)%N] => destruct (N.leb_spec x y); try lia
      | |- context [(?x =? ?y)%N] => destruct (N.eqb_spec x y); try lia
      end; cbn [andb negb]; try reflexivity; try (f_equal; lia).
Qed.

Lemma Forall2_rev_same {A : Type} (R : A -> A -> Prop) (l l' : list A) :
  Forall2 R l l' -> Forall2 R (rev l) (rev l').
Proof.
  induction 1 as [|x y l l' Hxy _ IH]; [constructor |].
  cbn [rev]. apply Forall2_app; [exact IH | repeat constructor; exact Hxy].
Qed.

Lemma lstrip_same (s t : str) :
  Forall2 same_letter s t -> Forall2 same_letter (lstrip s) (lstrip t).
Proof.
  induction 1 as [|c d s t Hcd Hst IH]; [constructor |].
  cbn [lstrip]. rewrite (same_letter_space c d Hcd).
  destruct (is_space d); [exact IH | constructor; assumption].
Qed.

Lemma strip_same (s t : str) :
  Forall2 same_letter s t -> Forall2 same_letter (strip s) (strip t).
Proof.
  intros H. unfold strip, rstrip.
  apply Forall2_rev_same, lstrip_same, Forall2_rev_same, lstrip_same, H.
Qed.

Lemma lower_same (s t : str) : Forall2 same_letter s t -> lower s = lower t.
Proof.
  induction 1 as [|c d s t Hcd _ IH]; [reflexivity |].
  unfold lower in *. cbn [flat_map]. now rewrite IH, (same_letter_lower c d Hcd).
Qed.

(** The case of the letters of a string does not count for [to_bool]. *)
Theorem to_bool_ignores_case (s t : str) :
  Forall2 same_letter s t -> to_bool (PyStr s) = to_bool (PyStr t).
Proof.
  intros H. cbn [to_bool]. now rewrite (lower_same _ _ (strip_same _ _ H)).
Qed.

Lemma to_bool_ignores_case_witness :
  Forall2 same_letter (str_of "tRuE") (str_of "true")
  /\ to_bool (PyStr (str_of "tRuE")) = Ok true.
Proof.
  assert (H : Forall2 same_letter (str_of "tRuE") (str_of "true"))
    by (repeat constructor).
  split; [exact H |].
  rewrite (to_bool_ignores_case _ _ H). vm_compute. reflexivity.
Defined.

(** ** What [parse_packet] reads *)

Lemma parse_packet_by_message (raw : list byte) :
  parse_packet raw = (msg <- message_of raw ;; sample_of_message msg).
Proof.
  unfold parse_packet, message_of, sample_of_message.
  destruct (decode_utf8 raw); reflexivity.
Qed.

(** Only the four fields are read: two packets that [json.loads] decodes
    to objects agreeing on them decode alike, whatever else the objects
    hold and in whatever order.  (The packets are within the limits of
    CPython that [json_loads] leaves out: the depth of nesting and the
    length of an integer literal.) *)
Theorem parse_packet_reads_four_fields (raw1 raw2 : list byte) (d1 d2 : dict) :
  message_of raw1 = Ok (PyDict d1) ->
  message_of raw2 = Ok (PyDict d2) ->
  (forall k, In k required -> dict_get (str_of k) d1 = dict_get (str_of k) d2) ->
  parse_packet raw1 = parse_packet raw2.
Proof.
  intros M1 M2 H. rewrite !parse_packet_by_message, M1, M2. cbn [bind].
  unfold sample_of_message, field, getitem, required in *. cbn [In] in H.
  rewrite (H "ts"%string), (H "aTA"%string), (H "aGAS"%string),
    (H "valid"%string) by tauto.
  reflexivity.
Qed.

Lemma parse_packet_reads_four_fields_witness :
  parse_packet
    (packet_of "{'note': [1, 2], 'valid': true, 'aGAS': 0.77, 'aTA': 0.42, 'ts': 1.5}")
  = parse_packet packet_1.
Proof.
  eapply parse_packet_reads_four_fields.
  - vm_compute. reflexivity.
  - vm_compute. reflexivity.
  - intros k Hk. unfold required in Hk. cbn [In] in Hk.
    destruct Hk as [<- | [<- | [<- | [<- | []]]]]; vm_compute; reflexivity.
Defined.

Lemma sample_of_message_raises (msg : pyval) (e : exn) :
  sample_of_message msg = Raise e ->
  (e = TypeError /\ forall d, msg <> PyDict d)
  \/ (exists d k, msg = PyDict d /\ In k required
                  /\ ((e = KeyError /\ dict_get (str_of k) d = None)
                      \/ ((e = ValueError \/ e = OverflowError)
                          /\ exists v, dict_get (str_of k) d = Some v
                                       /\ coerces k v = false))).
Proof.
  destruct msg as [| b | n | f | s | l | d];
    try (cbn; intros H; inversion H; left; split; [reflexivity | discriminate]).
  intros H. right. exists d. unfold sample_of_message, field, getitem in H.
  assert (step : forall k (kont : float -> result sample),
             k <> "valid"%string ->
             In k required ->
             (v <- match dict_get (str_of k) d with
                   | Some v => Ok v
                   | None => Raise KeyError
                   end ;; f <- to_float v ;; kont f) = Raise e ->
             (forall f, kont f = Raise e ->
                        exists k, In k required
                  /\ ((e = KeyError /\ dict_get (str_of k) d = None)
                      \/ ((e = ValueError \/ e = OverflowError)
                          /\ exists v, dict_get (str_of k) d = Some v
                                       /\ coerces k v = false))) ->
             exists k, In k required
                  /\ ((e = KeyError /\ dict_get (str_of k) d = None)
                      \/ ((e = ValueError \/ e = OverflowError)
                          /\ exists v, dict_get (str_of k) d = Some v
                                       /\ coerces k v = false))).
  { intros k kont Hv Hk Hr Hnext.
    destruct (dict_get (str_of k) d) as [v|] eqn:G; cbn [bind] in Hr.
    - destruct (to_float v) as [f|e0] eqn:F; cbn [bind] in Hr.
      + now apply (Hnext f).
      + exists k. split; [exact Hk |]. right. inversion Hr; subst e0.
        split; [now apply (to_float_raises v) |].
        exists v. split; [exact G |]. unfold coerces.
        apply String.eqb_neq in Hv. now rewrite Hv, F.
    - exists k. split; [exact Hk |]. left. inversion Hr. auto. }
  assert (R : exists k, In k required
                  /\ ((e = KeyError /\ dict_get (str_of k) d = None)
                      \/ ((e = ValueError \/ e = OverflowError)
                          /\ exists v, dict_get (str_of k) d = Some v
                                       /\ coerces k v = false))).
  { eapply (step "ts"%string); [discriminate | unfold required; cbn [In]; auto 6 | exact H |].
    intros f1 H1.
    eapply (step "aTA"%string); [discriminate | unfold required; cbn [In]; auto 6 | exact H1 |].
    intros f2 H2.
    eapply (step "aGAS"%string); [discriminate | unfold required; cbn [In]; auto 6 | exact H2 |].
    intros f3 H3. exists "valid"%string.
    split; [unfold required; cbn [In]; auto 6 |].
    destruct (dict_get (str_of "valid") d) as [v|] eqn:G; cbn [bind] in H3.
    - destruct (to_bool v) as [b|e0] eqn:B; cbn [bind] in H3; [discriminate |].
      right. inversion H3; subst e0. split; [left; now apply (to_bool_raises v) |].
      exists v. split; [reflexivity |]. unfold coerces. cbn. now rewrite B.
    - left. inversion H3. auto. }
  destruct R as [k R]. exists k. split; [reflexivity | exact R].
Qed.

(** The exception of a rejected packet tells what is wrong with it:
    bytes that are not UTF-8, text that is not JSON, a message that is
    not an object, a missing field, or a field that cannot be coerced.
    (Within the limits of CPython that [json_loads] leaves out, which
    raise exceptions of their own: the depth of nesting and the length of
    an integer literal.) *)
Theorem parse_packet_error_classes (raw : list byte) (e : exn) :
  parse_packet raw = Raise e ->
  (e = UnicodeDecodeError /\ decode_utf8 raw = Raise UnicodeDecodeError)
  \/ (e = JSONDecodeError
      /\ exists text, decode_utf8 raw = Ok text
                      /\ json_loads text = Raise JSONDecodeError)
  \/ (e = TypeError
      /\ exists msg, message_of raw = Ok msg /\ forall d, msg <> PyDict d)
  \/ (e = KeyError
      /\ exists d k, message_of raw = Ok (PyDict d) /\ In k required
                     /\ dict_get (str_of k) d = None)
  \/ ((e = ValueError \/ e = OverflowError)
      /\ exists d k v, message_of raw = Ok (PyDict d) /\ In k required
                       /\ dict_get (str_of k) d = Some v
                       /\ coerces k v = false).
Proof.
  rewrite parse_packet_by_message. unfold message_of.
  destruct (decode_utf8 raw) as [text|e0] eqn:D; cbn [bind].
  2:{ intros H. inversion H; subst e0. left.
      pose proof (decode_utf8_raises _ _ D) as E. subst e. auto. }
  destruct (json_loads text) as [msg|e0] eqn:J; cbn [bind].
  2:{ intros H. inversion H; subst e0. right. left.
      pose proof (json_loads_raises _ _ J) as E. subst e. eauto. }
  intros H. right. right.
  destruct (sample_of_message_raises msg e H)
    as [[-> Hm] | (d & k & -> & Hk & [[-> G] | [He (v & G & C)]])].
  - left. eauto.
  - right. left. split; [reflexivity |]. exists d, k. auto.
  - right. right. split; [exact He |]. exists d, k, v. auto.
Qed.

Lemma parse_packet_error_classes_witness :
  parse_packet (packet_of "[1.5, 0.42, 0.77, true]") = Raise TypeError
  /\ exists msg, message_of (packet_of "[1.5, 0.42, 0.77, true]") = Ok msg
                 /\ forall d, msg <> PyDict d.
Proof.
  assert (H : parse_packet (packet_of "[1.5, 0.42, 0.77, true]") = Raise TypeError)
    by (vm_compute; reflexivity).
  split; [exact H |].
  destruct (parse_packet_error_classes _ _ H)
    as [[E _] | [[E _] | [[_ R] | [[E _] | [[E | E] _]]]]];
    try discriminate E.
  exact R.
Defined.

(** ** What a publication leaves alone *)

Lemma in_atomic_write_json (p : path) (data : sample) (i : instr) :
  In i (atomic_write_json p data) ->
  i = OpenWrite TmpFile (tmp_of p) \/ (exists s, i = Write TmpFile s)
  \/ i = Close TmpFile \/ i = Replace (tmp_of p) p.
Proof.
  unfold atomic_write_json, with_open_write. cbv zeta. intros H.
  apply in_app_or in H. destruct H as [[H | H] | [H | []]]; auto.
  apply in_app_or in H. destruct H as [H | [H | []]]; auto.
  apply in_map_iff in H. destruct H as [s [H _]]. eauto.
Qed.

(** Unwinding closes the temporary file. *)
Lemma unwind_closes_tmp (i : instr) (w : world) :
  i <> Close CsvFile -> tmp_file (unwind i w) = None.
Proof.
  intros Hi.
  assert (F : tmp_file (match flush_handle w TmpFile with
                        | Ok w' => set_handle w' TmpFile None
                        | Raise _ => w
                        end) = None).
  { unfold flush_handle. cbn [get_handle].
    destruct (tmp_file w) as [[q buf]|] eqn:T; [reflexivity | exact T]. }
  destruct i; try exact F. destruct h; [congruence | reflexivity].
Qed.

(** A run that an exception stops ends in the unwinding of one of its
    primitives. *)
Lemma run_stopped_unwound (prog : list instr) :
  forall flt w e, snd (run flt prog w) = Some e ->
                  exists i w0, In i prog /\ fst (run flt prog w) = unwind i w0.
Proof.
  induction prog as [|i rest IH]; intros flt w e; cbn [run]; [discriminate |].
  destruct (raised_now flt).
  - intros _. exists i, w. split; [now left | reflexivity].
  - destruct (step_instr w i) as [w'|e'].
    + intros H. destruct (IH _ _ _ H) as (j & w0 & Hj & E).
      exists j, w0. split; [now right | exact E].
    + intros _. exists i, w. split; [now left | reflexivity].
Qed.

Lemma frame_kept (p q : path) (data : sample) (w0 : world) :
  q <> p -> q <> tmp_of p ->
  forall i w, In i (atomic_write_json p data) -> frame_inv p q w0 w ->
              (forall w', step_instr w i = Ok w' -> frame_inv p q w0 w')
              /\ frame_inv p q w0 (unwind i w).
Proof.
  intros Hp Ht i w Hi (Hf & Hc & Hh).
  assert (Hflush : forall w1, flush_handle w TmpFile = Ok w1 ->
                              files w1 q = files w0 q /\ csv_file w1 = csv_file w0).
  { intros w1 F. unfold flush_handle in F. cbn [get_handle] in F.
    destruct Hh as [Hh | [buf Hh]]; rewrite Hh in F; [discriminate |].
    inversion F; subst w1. cbn [set_handle set_files files csv_file].
    now rewrite fs_set_other. }
  assert (Hun : forall j, (forall h, j <> Close h) -> frame_inv p q w0 (unwind j w)).
  { intros j Hj.
    assert (E : unwind j w = match flush_handle w TmpFile with
                             | Ok w' => set_handle w' TmpFile None
                             | Raise _ => w
                             end).
    { destruct j; try reflexivity. exfalso. now apply (Hj h). }
    rewrite E. destruct (flush_handle w TmpFile) as [w1|e] eqn:F.
    - destruct (Hflush w1 eq_refl) as [H1 H2].
      split; [exact H1 | split; [exact H2 | now left]].
    - split; [exact Hf | split; [exact Hc | exact Hh]]. }
  destruct (in_atomic_write_json p data i Hi) as [-> | [[s ->] | [-> | ->]]].
  - split; [| apply Hun; discriminate].
    intros w' H. cbn [step_instr] in H. inversion H; subst w'.
    unfold frame_inv. cbn [set_handle set_files files csv_file tmp_file].
    split; [| split; [exact Hc | right; eexists; reflexivity]].
    rewrite fs_set_other by assumption. exact Hf.
  - split; [| apply Hun; discriminate].
    intros w' H. cbn [step_instr get_handle] in H.
    destruct Hh as [Hh | [buf Hh]]; rewrite Hh in H; [discriminate |].
    inversion H; subst w'. cbn [set_handle].
    split; [exact Hf | split; [exact Hc | right; eexists; reflexivity]].
  - split.
    + intros w' H. cbn [step_instr] in H.
      destruct (flush_handle w TmpFile) as [w1|e] eqn:F; cbn [bind] in H;
        [| discriminate].
      inversion H; subst w'. destruct (Hflush w1 eq_refl) as [H1 H2].
      split; [exact H1 | split; [exact H2 | now left]].
    + cbn [unwind set_handle]. split; [exact Hf | split; [exact Hc | now left]].
  - split; [| apply Hun; discriminate].
    intros w' H. cbn [step_instr] in H.
    destruct (files w (tmp_of p)) as [c|]; [| discriminate].
    inversion H; subst w'. unfold frame_inv.
    cbn [set_files files csv_file tmp_file].
    split; [| split; [exact Hc | exact Hh]].
    rewrite !fs_set_other by assumption. exact Hf.
Qed.

(** Whichever primitive fails, or none, a publication at [p] touches
    nothing but [p] and its temporary file: every other path keeps its
    content all along, the log stays open as it was, and the temporary
    file is closed at the end; after a complete run it no longer
    exists. *)
Theorem publish_frame (flt : fault) (p q : path) (data : sample) (w : world) :
  tmp_file w = None -> q <> p -> q <> tmp_of p ->
  let w' := fst (run flt (atomic_write_json p data) w) in
  Forall (fun w1 => files w1 q = files w q /\ csv_file w1 = csv_file w)
         (trace flt (atomic_write_json p data) w)
  /\ files w' q = files w q
  /\ csv_file w' = csv_file w
  /\ tmp_file w' = None
  /\ (snd (run flt (atomic_write_json p data) w) = None ->
      files w' (tmp_of p) = None).
Proof.
  intros Ht Hp Hq. cbv zeta.
  assert (Hinv : Forall (frame_inv p q w) (trace flt (atomic_write_json p data) w)).
  { apply trace_invariant; [now apply frame_kept |].
    split; [reflexivity | split; [reflexivity | now left]]. }
  assert (Hlast : frame_inv p q w (fst (run flt (atomic_write_json p data) w))).
  { rewrite run_trace_last. apply Forall_last; [exact Hinv |].
    split; [reflexivity | split; [reflexivity | now left]]. }
  split; [| split; [apply Hlast | split; [apply Hlast |]]].
  - eapply Forall_impl; [| exact Hinv]. intros w1 (H1 & H2 & _). auto.
  - destruct (snd (run flt (atomic_write_json p data) w)) as [e|] eqn:R.
    + split; [| discriminate].
      destruct (run_stopped_unwound _ _ _ _ R) as (i & w0 & Hi & E).
      rewrite E. apply unwind_closes_tmp.
      destruct (in_atomic_write_json p data i Hi) as [-> | [[s ->] | [-> | ->]]];
        discriminate.
    + destruct (run_completes _ _ _ R) as [E _]. rewrite E.
      destruct w as [f c t]. rewrite atomic_write_json_run. cbn [fst tmp_file files].
      split; [reflexivity |]. intros _. apply published_tmp.
Qed.

Lemma publish_frame_witness :
  tmp_file (disk state_1) = None
  /\ csv_path args_1 <> latest_path args_1
  /\ csv_path args_1 <> tmp_of (latest_path args_1)
  /\ files (fst (run (Some (7%nat, OSError 28))
                     (atomic_write_json (latest_path args_1) sample_1)
                     (disk state_1)))
           (csv_path args_1)
     = Some (encode_utf8 csv_header).
Proof.
  assert (H1 : tmp_file (disk state_1) = None) by reflexivity.
  assert (H2 : csv_path args_1 <> latest_path args_1) by (vm_compute; discriminate).
  assert (H3 : csv_path args_1 <> tmp_of (latest_path args_1))
    by (vm_compute; discriminate).
  split; [exact H1 |]. split; [exact H2 |]. split; [exact H3 |].
  rewrite (proj1 (proj2 (publish_frame (Some (7%nat, OSError 28))
                           (latest_path args_1) (csv_path args_1) sample_1
                           (disk state_1) H1 H2 H3))).
  vm_compute. reflexivity.
Defined.

(** ** The log only grows *)

Lemma extends_refl {A : Type} (l : list A) : extends l l.
Proof. exists []. now rewrite app_nil_r. Qed.

Lemma extends_trans {A : Type} (l1 l2 l3 : list A) :
  extends l1 l2 -> extends l2 l3 -> extends l1 l3.
Proof.
  intros [s1 ->] [s2 ->]. exists (s1 ++ s2). now rewrite app_assoc.
Qed.

Lemma content_other (f : fs) (p q : path) (c : option (list byte)) :
  q <> p -> content (fs_set f p c) q = content f q.
Proof. intros H. unfold content. now rewrite fs_set_other. Qed.

Lemma in_persist (a : args) (recv_ts : float) (emg : sample) (i : instr) :
  In i (persist a recv_ts emg) ->
  (exists s, i = Write CsvFile s) \/ i = Flush CsvFile
  \/ In i (atomic_write_json (latest_path a) emg).
Proof.
  unfold persist. intros H. apply in_app_or in H.
  destruct H as [[H | [H | []]] | H]; eauto.
Qed.

Lemma persist_never_closes_log (a : args) (recv_ts : float) (emg : sample) :
  ~ In (Close CsvFile) (persist a recv_ts emg).
Proof.
  intros H. destruct (in_persist _ _ _ _ H) as [[s E] | [E | E]];
    try discriminate E.
  destruct (in_atomic_write_json _ _ _ E) as [E' | [[s E'] | [E' | E']]];
    discriminate E'.
Qed.

Lemma log_inv_kept (a : args) (recv_ts : float) (emg : sample) (c0 : list byte) :
  forall i w, In i (persist a recv_ts emg) -> log_inv a c0 w ->
              (forall w', step_instr w i = Ok w' -> log_inv a c0 w')
              /\ log_inv a c0 (unwind i w).
Proof.
  intros i w Hi (Hc & Ht & He).
  pose proof (csv_tmp_neq a) as Nt. pose proof (csv_latest_neq a) as Nl.
  assert (Hflush : forall w1, flush_handle w TmpFile = Ok w1 ->
                              csv_file w1 = csv_file w
                              /\ content (files w1) (csv_path a)
                                 = content (files w) (csv_path a)).
  { intros w1 F. unfold flush_handle in F. cbn [get_handle] in F.
    destruct Ht as [Ht | [buf Ht]]; rewrite Ht in F; [discriminate |].
    inversion F; subst w1. cbn [set_handle set_files files csv_file].
    split; [reflexivity |]. now apply content_other. }
  assert (Hun : forall j, (forall h, j <> Close h) -> log_inv a c0 (unwind j w)).
  { intros j Hj.
    assert (E : unwind j w = match flush_handle w TmpFile with
                             | Ok w' => set_handle w' TmpFile None
                             | Raise _ => w
                             end).
    { destruct j; try reflexivity. exfalso. now apply (Hj h). }
    rewrite E. destruct (flush_handle w TmpFile) as [w1|e] eqn:F.
    - destruct (Hflush w1 eq_refl) as [H1 H2]. unfold log_inv.
      cbn [set_handle files csv_file tmp_file]. rewrite H1, H2. auto.
    - unfold log_inv. auto. }
  destruct Hc as [cbuf Hc].
  destruct (in_persist _ _ _ _ Hi) as [[s ->] | [-> | Hin]].
  - split; [| apply Hun; discriminate].
    intros w' H. cbn [step_instr get_handle] in H. rewrite Hc in H.
    inversion H; subst w'. unfold log_inv. cbn [set_handle files csv_file tmp_file].
    split; [eexists; reflexivity | auto].
  - split; [| apply Hun; discriminate].
    intros w' H. cbn [step_instr] in H. unfold flush_handle in H.
    cbn [get_handle] in H. rewrite Hc in H. inversion H; subst w'.
    unfold log_inv. cbn [set_handle set_files files csv_file tmp_file].
    split; [eexists; reflexivity |]. split; [exact Ht |].
    unfold content at 1. rewrite fs_set_same.
    eapply extends_trans; [exact He |]. exists cbuf. reflexivity.
  - destruct (in_atomic_write_json _ _ _ Hin) as [-> | [[s ->] | [-> | ->]]].
    + split; [| apply Hun; discriminate].
      intros w' H. cbn [step_instr] in H. inversion H; subst w'.
      unfold log_inv. cbn [set_handle set_files files csv_file tmp_file].
      rewrite content_other by exact Nt.
      split; [eauto |]. split; [right; eexists; reflexivity | exact He].
    + split; [| apply Hun; discriminate].
      intros w' H. cbn [step_instr get_handle] in H.
      destruct Ht as [Ht | [buf Ht]]; rewrite Ht in H; [discriminate |].
      inversion H; subst w'. unfold log_inv.
      cbn [set_handle files csv_file tmp_file].
      split; [eauto |]. split; [right; eexists; reflexivity | exact He].
    + split.
      * intros w' H. cbn [step_instr] in H.
        destruct (flush_handle w TmpFile) as [w1|e] eqn:F; cbn [bind] in H;
          [| discriminate].
        inversion H; subst w'. destruct (Hflush w1 eq_refl) as [H1 H2].
        unfold log_inv. cbn [set_handle files csv_file tmp_file].
        rewrite H1, H2. eauto.
      * unfold log_inv. cbn [unwind set_handle files csv_file tmp_file]. eauto.
    + split; [| apply Hun; discriminate].
      intros w' H. cbn [step_instr] in H.
      destruct (files w (tmp_of (latest_path a))) as [c|]; [| discriminate].
      inversion H; subst w'. unfold log_inv.
      cbn [set_files files csv_file tmp_file].
      rewrite !content_other by assumption. eauto.
Qed.

Lemma persist_closes_tmp (a : args) (recv_ts : float) (emg : sample)
      (flt : fault) (w : world) :
  tmp_file (fst (run flt (persist a recv_ts emg) w)) = None.
Proof.
  destruct (snd (run flt (persist a recv_ts emg) w)) as [e|] eqn:R.
  - destruct (run_stopped_unwound _ _ _ _ R) as (i & w0 & Hi & E).
    rewrite E. apply unwind_closes_tmp. intros ->.
    now apply (persist_never_closes_log a recv_ts emg).
  - destruct (run_completes _ _ _ R) as [E _]. rewrite E in *. clear E.
    unfold persist in *. rewrite run_app in *.
    destruct (run None [Write CsvFile (csv_row recv_ts emg); Flush CsvFile] w)
      as [[f c t] [e|]]; [discriminate R |].
    rewrite later_iter_none, atomic_write_json_run. reflexivity.
Qed.

(** One iteration, whatever it receives and whatever fails, leaves the
    log open and the log on the disk a continuation of what it was. *)
Lemma iteration_keeps_log (timeout_alias : bool) (a : args) (st : loop_state)
      (ev : event) :
  log_open a (disk st) ->
  log_open a (disk (state_of (iteration timeout_alias a st ev)))
  /\ extends (content (files (disk st)) (csv_path a))
             (content (files (disk (state_of (iteration timeout_alias a st ev))))
                      (csv_path a)).
Proof.
  intros [Hc Ht].
  assert (Same : log_open a (disk st)
                 /\ extends (content (files (disk st)) (csv_path a))
                            (content (files (disk st)) (csv_path a)))
    by (split; [split; assumption | apply extends_refl]).
  destruct ev as [e | datagram recv_ts flt]; cbn [iteration]; unfold outer_handler.
  - destruct (is_socket_timeout timeout_alias e); exact Same.
  - destruct (parse_packet _) as [emg|e].
    2:{ destruct (is_Exception e); [exact Same |].
        destruct (is_socket_timeout timeout_alias e); exact Same. }
    pose proof (persist_closes_tmp a recv_ts emg flt (disk st)) as Hclosed.
    assert (Hinv : log_inv a (content (files (disk st)) (csv_path a))
                           (fst (run flt (persist a recv_ts emg) (disk st)))).
    { assert (H0 : log_inv a (content (files (disk st)) (csv_path a)) (disk st))
        by (split; [exact Hc | split; [now left | apply extends_refl]]).
      rewrite run_trace_last. apply Forall_last; [| exact H0].
      apply trace_invariant; [apply log_inv_kept | exact H0]. }
    destruct (run flt (persist a recv_ts emg) (disk st)) as [w' [e|]];
      cbn [fst] in *; destruct Hinv as (H1 & _ & H3).
    + destruct (is_socket_timeout timeout_alias e); cbn [state_of disk];
        (split; [split; assumption | exact H3]).
    + cbn [state_of disk]. split; [split; assumption | exact H3].
Qed.

(** Through any events and any failures, the log on the disk only grows
    at its end: no byte once there is changed or removed. *)
Theorem log_only_grows (timeout_alias : bool) (a : args) (evs : list event) :
  forall st,
    log_open a (disk st) ->
    log_open a (disk (state_of (main_loop timeout_alias a evs st)))
    /\ extends (content (files (disk st)) (csv_path a))
               (content (files (disk (state_of (main_loop timeout_alias a evs st))))
                        (csv_path a)).
Proof.
  induction evs as [|ev evs IH]; intros st H.
  - cbn [main_loop state_of]. split; [exact H | apply extends_refl].
  - cbn [main_loop].
    destruct (iteration_keeps_log timeout_alias a st ev H) as [H1 H2].
    destruct (iteration timeout_alias a st ev) as [st1 | e st1]; cbn [state_of] in *.
    + destruct (IH st1 H1) as [H3 H4]. split; [exact H3 |].
      eapply extends_trans; eassumption.
    + auto.
Qed.

Lemma log_only_grows_witness :
  log_open args_1 (disk state_1)
  /\ extends (encode_utf8 csv_header)
             (content
                (files
                   (disk
                      (state_of
                         (main_loop true args_1
                            [Packet packet_1 1.5 (Some (1%nat, TimeoutError));
                             Packet packet_1 2.5 (Some (9%nat, OSError 5))]
                            state_1))))
                (csv_path args_1)).
Proof.
  assert (H : log_open args_1 (disk state_1))
    by (split; [eexists; reflexivity | reflexivity]).
  split; [exact H |].
  exact (proj2 (log_only_grows true args_1
                  [Packet packet_1 1.5 (Some (1%nat, TimeoutError));
                   Packet packet_1 2.5 (Some (9%nat, OSError 5))]
                  state_1 H)).
Defined.

(** ** The counters and [last_sample] *)

Lemma iteration_counts (timeout_alias : bool) (a : args) (st st' : loop_state)
      (ev : event) :
  iteration timeout_alias a st ev = Running st' ->
  bad st' = bad st + Z.of_nat (rejected a [ev])
  /\ ok st <= ok st' <= ok st + Z.of_nat (List.length (accepted a [ev])).
Proof.
  destruct ev as [e | datagram recv_ts flt]; cbn [iteration rejected accepted];
    unfold outer_handler.
  - destruct (is_socket_timeout timeout_alias e); intros H; inversion H.
    cbn [List.length]. lia.
  - destruct (parse_packet _) as [emg|e] eqn:P.
    + destruct (run flt _ _) as [w' [e|]].
      * destruct (is_socket_timeout timeout_alias e); intros H; inversion H.
        cbn [ok bad List.length]. lia.
      * intros H; inversion H. cbn [ok bad List.length]. lia.
    + rewrite (parse_packet_raises _ _ P).
      intros H; inversion H. cbn [ok bad List.length]. lia.
Qed.

Lemma rejected_cons (a : args) (ev : event) (evs : list event) :
  rejected a (ev :: evs) = (rejected a [ev] + rejected a evs)%nat.
Proof.
  destruct ev as [e | datagram recv_ts flt]; cbn [rejected]; [reflexivity |].
  destruct (parse_packet _); reflexivity.
Qed.

Lemma accepted_cons (a : args) (ev : event) (evs : list event) :
  accepted a (ev :: evs) = accepted a [ev] ++ accepted a evs.
Proof.
  destruct ev as [e | datagram recv_ts flt]; cbn [accepted]; [reflexivity |].
  destruct (parse_packet _); reflexivity.
Qed.

(** As long as the loop runs, whatever fails: [bad] has counted every
    rejected packet, and [ok] has grown by at most the number of packets
    that decode (by less when a write failed and was passed over). *)
Theorem counters_account (timeout_alias : bool) (a : args) (evs : list event) :
  forall st st',
    main_loop timeout_alias a evs st = Running st' ->
    bad st' = bad st + Z.of_nat (rejected a evs)
    /\ ok st <= ok st' <= ok st + Z.of_nat (List.length (accepted a evs)).
Proof.
  induction evs as [|ev evs IH]; intros st st'.
  - cbn [main_loop rejected accepted List.length]. intros H; inversion H. lia.
  - cbn [main_loop].
    destruct (iteration timeout_alias a st ev) as [st1 | e st1] eqn:I;
      [| discriminate].
    intros H. destruct (iteration_counts _ _ _ _ _ I) as [B1 O1].
    destruct (IH _ _ H) as [B2 O2].
    rewrite rejected_cons, accepted_cons, length_app. lia.
Qed.

Lemma counters_account_witness :
  main_loop true args_1 events_1 state_1
  = Running (state_of (main_loop true args_1 events_1 state_1))
  /\ bad (state_of (main_loop true args_1 events_1 state_1)) = 2.
Proof.
  assert (H : main_loop true args_1 events_1 state_1
              = Running (state_of (main_loop true args_1 events_1 state_1)))
    by (vm_compute; reflexivity).
  split; [exact H |].
  rewrite (proj1 (counters_account true args_1 events_1 state_1 _ H)).
  vm_compute. reflexivity.
Defined.

Lemma iteration_last_sample (timeout_alias : bool) (a : args) (st : loop_state)
      (ev : event) :
  0 <= ok st -> (ok st = 0 <-> last_sample st = None) ->
  0 <= ok (state_of (iteration timeout_alias a st ev))
  /\ (ok (state_of (iteration timeout_alias a st ev)) = 0
      <-> last_sample (state_of (iteration timeout_alias a st ev)) = None).
Proof.
  intros H0 H.
  destruct ev as [e | datagram recv_ts flt]; cbn [iteration]; unfold outer_handler.
  - destruct (is_socket_timeout timeout_alias e); cbn [state_of]; auto.
  - destruct (parse_packet _) as [emg|e].
    + destruct (run flt _ _) as [w' [e|]].
      * destruct (is_socket_timeout timeout_alias e);
          cbn [state_of ok last_sample]; auto.
      * cbn [state_of ok last_sample]. split; [lia |].
        split; [lia | discriminate].
    + destruct (is_Exception e); [cbn [state_of ok last_sample]; auto |].
      destruct (is_socket_timeout timeout_alias e); cbn [state_of]; auto.
Qed.

(** From the start of [main] on, through any events and failures,
    [last_sample] is [None] exactly as long as [ok] is zero: the status
    line says that the listener waits for data exactly until the first
    packet is accepted. *)
Theorem last_sample_iff_accepted (timeout_alias : bool) (a : args)
        (flt : fault) (w : world) (st0 : loop_state) (evs : list event) :
  start a flt w = Ok st0 ->
  let st := state_of (main_loop timeout_alias a evs st0) in
  0 <= ok st /\ (ok st = 0 <-> last_sample st = None).
Proof.
  intros S. cbv zeta.
  assert (I0 : 0 <= ok st0 /\ (ok st0 = 0 <-> last_sample st0 = None)).
  { unfold start in S. destruct (run flt _ w) as [w' [e|]]; inversion S.
    cbn [ok last_sample]. split; [lia | tauto]. }
  clear S. revert st0 I0.
  induction evs as [|ev evs IH]; intros st0 [I1 I2]; cbn [main_loop].
  - cbn [state_of]. auto.
  - pose proof (iteration_last_sample timeout_alias a st0 ev I1 I2) as I.
    destruct (iteration timeout_alias a st0 ev) as [st1 | e st1];
      cbn [state_of] in *; [apply IH; exact I | exact I].
Qed.

Lemma last_sample_iff_accepted_witness :
  start args_1 None empty_world
  = Ok (mkLoop 0 0 None
               (fst (run None (open_log args_1 true) empty_world)))
  /\ last_sample
       (state_of
          (main_loop true args_1 events_1
             (mkLoop 0 0 None
                     (fst (run None (open_log args_1 true) empty_world)))))
     <> None.
Proof.
  assert (H : start args_1 None empty_world
              = Ok (mkLoop 0 0 None
                           (fst (run None (open_log args_1 true) empty_world))))
    by reflexivity.
  split; [exact H |].
  intros E.
  apply (proj2 (last_sample_iff_accepted true args_1 None empty_world _
                  events_1 H)) in E.
  revert E. vm_compute. discriminate.
Defined.

(** ** The published file through a session *)

(** However a publication ends, the published path holds what it held
    or the full text of the sample. *)
Lemma publish_old_or_new (flt : fault) (p : path) (data : sample) (w : world) :
  tmp_file w = None ->
  files (fst (run flt (atomic_write_json p data) w)) p = files w p
  \/ files (fst (run flt (atomic_write_json p data) w)) p
     = Some (encode_utf8 (json_text data)).
Proof.
  intros Ht.
  destruct (snd (run flt (atomic_write_json p data) w)) as [e|] eqn:R.
  - left. revert R. unfold atomic_write_json. cbv zeta.
    set (block := with_open_write (tmp_of p) (json_chunks data ++ [newline])).
    assert (Hinv : block_inv p (files w p) (fst (run flt block w))).
    { assert (H0 : block_inv p (files w p) w) by (split; [reflexivity | now left]).
      rewrite run_trace_last. apply Forall_last; [| exact H0].
      apply trace_invariant; [apply with_block_keeps | exact H0]. }
    rewrite run_app.
    destruct (run flt block w) as [w1 [e1|]]; cbn [fst] in Hinv.
    + intros _. apply Hinv.
    + assert (Hun : files (unwind (Replace (tmp_of p) p) w1) p = files w p).
      { cbn [unwind]. destruct (flush_handle w1 TmpFile) as [w2|e2] eqn:F.
        - cbn [set_handle files]. exact (proj1 (flush_tmp_keeps _ _ _ _ Hinv F)).
        - apply Hinv. }
      cbn [run]. destruct (raised_now _); [intros _; exact Hun |].
      destruct (step_instr w1 (Replace (tmp_of p) p)); [discriminate |].
      intros _. exact Hun.
  - right. destruct (run_completes _ _ _ R) as [E _]. rewrite E.
    destruct w as [f c t]. rewrite atomic_write_json_run. apply published_at.
Qed.

(** The two writes to the log leave every other path and the temporary
    handle alone. *)
Lemma log_writes_frame (a : args) (flt : fault) (row : str) (w : world)
      (q : path) :
  log_open a w -> q <> csv_path a ->
  files (fst (run flt [Write CsvFile row; Flush CsvFile] w)) q = files w q
  /\ tmp_file (fst (run flt [Write CsvFile row; Flush CsvFile] w)) = None.
Proof.
  intros [[buf Hc] Ht] Hq. destruct w as [f c t]. cbn [csv_file tmp_file] in *.
  subst c t.
  cbn [run step_instr get_handle set_handle csv_file tmp_file files set_files
       flush_handle unwind].
  destruct (raised_now flt); [cbn [fst files tmp_file]; auto |].
  destruct (raised_now (later flt));
    cbn [fst files tmp_file fs_set]; [auto |].
  split; [| reflexivity]. now apply fs_set_other.
Qed.

Lemma persist_snapshot (a : args) (flt : fault) (recv_ts : float)
      (emg : sample) (w : world) :
  log_open a w ->
  files (fst (run flt (persist a recv_ts emg) w)) (latest_path a)
  = files w (latest_path a)
  \/ files (fst (run flt (persist a recv_ts emg) w)) (latest_path a)
     = Some (encode_utf8 (json_text emg)).
Proof.
  intros H. unfold persist. rewrite run_app.
  assert (Nl : latest_path a <> csv_path a)
    by (intros E; symmetry in E; revert E; apply csv_latest_neq).
  destruct (log_writes_frame a flt (csv_row recv_ts emg) w (latest_path a) H Nl)
    as [H1 H2].
  destruct (run flt [Write CsvFile (csv_row recv_ts emg); Flush CsvFile] w)
    as [w1 [e|]]; cbn [fst] in *; [now left |].
  rewrite <- H1. now apply publish_old_or_new.
Qed.

Lemma iteration_snapshot (timeout_alias : bool) (a : args) (st : loop_state)
      (ev : event) :
  log_open a (disk st) ->
  let w' := disk (state_of (iteration timeout_alias a st ev)) in
  files w' (latest_path a) = files (disk st) (latest_path a)
  \/ exists r, In r (accepted a [ev])
               /\ files w' (latest_path a)
                  = Some (encode_utf8 (json_text (snd r))).
Proof.
  intros H. cbv zeta.
  destruct ev as [e | datagram recv_ts flt];
    cbn [iteration accepted]; unfold outer_handler.
  - destruct (is_socket_timeout timeout_alias e); now left.
  - destruct (parse_packet _) as [emg|e].
    2:{ destruct (is_Exception e); [now left |].
        destruct (is_socket_timeout timeout_alias e); now left. }
    pose proof (persist_snapshot a flt recv_ts emg (disk st) H) as S.
    assert (G : forall w',
               w' = fst (run flt (persist a recv_ts emg) (disk st)) ->
               files w' (latest_path a) = files (disk st) (latest_path a)
               \/ exists r, In r [(recv_ts, emg)]
                            /\ files w' (latest_path a)
                               = Some (encode_utf8 (json_text (snd r)))).
    { intros w' ->. destruct S as [S | S]; [now left | right].
      exists (recv_ts, emg). split; [now left | exact S]. }
    destruct (run flt (persist a recv_ts emg) (disk st)) as [w' [e|]];
      cbn [fst] in G.
    + destruct (is_socket_timeout timeout_alias e); cbn [state_of disk];
        now apply G.
    + cbn [state_of disk]. now apply G.
Qed.

(** Through any events and any failures, the published file is never
    left in pieces: after each iteration it holds what it held when the
    loop was entered, or the whole text of a sample the loop has decoded
    since. *)
Theorem snapshot_stays_whole (timeout_alias : bool) (a : args)
        (evs : list event) :
  forall st,
    log_open a (disk st) ->
    let w' := disk (state_of (main_loop timeout_alias a evs st)) in
    files w' (latest_path a) = files (disk st) (latest_path a)
    \/ exists r, In r (accepted a evs)
                 /\ files w' (latest_path a)
                    = Some (encode_utf8 (json_text (snd r))).
Proof.
  induction evs as [|ev evs IH]; intros st H; cbv zeta.
  - now left.
  - rewrite accepted_cons. cbn [main_loop].
    pose proof (iteration_snapshot timeout_alias a st ev H) as S.
    pose proof (proj1 (iteration_keeps_log timeout_alias a st ev H)) as K.
    cbv zeta in S.
    destruct (iteration timeout_alias a st ev) as [st1 | e st1];
      cbn [state_of] in *.
    + destruct (IH st1 K) as [I | (r & Hr & I)].
      * rewrite I. destruct S as [S | (r & Hr & S)]; [now left | right].
        exists r. split; [apply in_or_app; now left | exact S].
      * right. exists r. split; [apply in_or_app; now right | exact I].
    + destruct S as [S | (r & Hr & S)]; [now left | right].
      exists r. split; [apply in_or_app; now left | exact S].
Qed.

Lemma snapshot_stays_whole_witness :
  log_open args_1 (disk state_1)
  /\ (files (disk (state_of
               (main_loop true args_1
                  [Packet packet_1 1.5 (Some (1%nat, TimeoutError));
                   Packet packet_1 2.5 (Some (9%nat, OSError 5))]
                  state_1)))
            (latest_path args_1)
      = files (disk state_1) (latest_path args_1)
      \/ exists r,
          In r (accepted args_1
                  [Packet packet_1 1.5 (Some (1%nat, TimeoutError));
                   Packet packet_1 2.5 (Some (9%nat, OSError 5))])
          /\ files (disk (state_of
                      (main_loop true args_1
                         [Packet packet_1 1.5 (Some (1%nat, TimeoutError));
                          Packet packet_1 2.5 (Some (9%nat, OSError 5))]
                         state_1)))
                   (latest_path args_1)
             = Some (encode_utf8 (json_text (snd r)))).
Proof.
  assert (H : log_open args_1 (disk state_1))
    by (split; [eexists; reflexivity | reflexivity]).
  split; [exact H |].
  exact (snapshot_stays_whole true args_1
           [Packet packet_1 1.5 (Some (1%nat, TimeoutError));
            Packet packet_1 2.5 (Some (9%nat, OSError 5))]
           state_1 H).
Defined.
(** ** Starting again and stopping *)

Lemma reopen_log_run (a : args) (f : fs) (c t : option open_file)
      (old : list byte) :
  f (csv_path a) = Some old ->
  run None (open_log a false) (mkWorld f c t)
  = (mkWorld f (Some (csv_path a, [])) t, None).
Proof.
  intros H. unfold open_log.
  cbn [run raised_now later step_instr set_handle set_files files csv_file
       tmp_file].
  now rewrite H.
Qed.

(** Started on a log that exists, the listener writes no second header:
    it keeps what the log holds and puts the new rows after it. *)
Theorem restart_appends (timeout_alias : bool) (a : args) (w : world)
        (old : list byte) (evs : list event) :
  files w (csv_path a) = Some old ->
  Forall (calm timeout_alias) evs ->
  exists st0 st,
    start a None w = Ok st0
    /\ main_loop timeout_alias a evs st0 = Running st
    /\ files (disk st) (csv_path a)
       = Some (old ++ encode_utf8 (rows (accepted a evs))).
Proof.
  intros Hold Hcalm. destruct w as [f c t]. cbn [files] in *.
  unfold start. cbn [files]. rewrite Hold, (reopen_log_run a f c t old Hold).
  eexists.
  destruct (main_loop_calm timeout_alias a evs
              (mkLoop 0 0 None (mkWorld f (Some (csv_path a, [])) t)) old)
    as (st & H1 & H2 & _); [reflexivity | exact Hold | exact Hcalm |].
  exists st. auto.
Qed.

Lemma restart_appends_witness :
  files (disk state_1) (csv_path args_1) = Some (encode_utf8 csv_header)
  /\ Forall (calm true) events_1
  /\ exists st0 st,
      start args_1 None (disk state_1) = Ok st0
      /\ main_loop true args_1 events_1 st0 = Running st
      /\ files (disk st) (csv_path args_1)
         = Some (encode_utf8 csv_header
                   ++ encode_utf8 (rows (accepted args_1 events_1))).
Proof.
  assert (H1 : files (disk state_1) (csv_path args_1)
               = Some (encode_utf8 csv_header)) by reflexivity.
  assert (H2 : Forall (calm true) events_1) by (repeat constructor).
  split; [exact H1 |]. split; [exact H2 |].
  exact (restart_appends true args_1 (disk state_1) _ events_1 H1 H2).
Defined.

Lemma main_loop_app (timeout_alias : bool) (a : args) (evs1 evs2 : list event) :
  forall st,
    main_loop timeout_alias a (evs1 ++ evs2) st
    = match main_loop timeout_alias a evs1 st with
      | Running st1 => main_loop timeout_alias a evs2 st1
      | Stopped e st1 => Stopped e st1
      end.
Proof.
  induction evs1 as [|ev evs1 IH]; intros st; cbn [app main_loop]; [reflexivity |].
  destruct (iteration timeout_alias a st ev); [apply IH | reflexivity].
Qed.

(** Calm events leave the log open with an empty buffer. *)
Lemma main_loop_calm_ready (timeout_alias : bool) (a : args) (evs : list event) :
  forall st st',
    csv_file (disk st) = Some (csv_path a, []) ->
    Forall (calm timeout_alias) evs ->
    main_loop timeout_alias a evs st = Running st' ->
    csv_file (disk st') = Some (csv_path a, []).
Proof.
  induction evs as [|ev evs IH]; intros st st' Hh Hcalm; cbn [main_loop].
  - intros H. inversion H. now subst.
  - inversion Hcalm as [|? ? Hev Hrest]; subst.
    destruct ev as [e | datagram recv_ts flt]; cbn [calm] in Hev; subst;
      cbn [iteration]; unfold outer_handler.
    + rewrite socket_timeout_caught. now apply IH.
    + destruct (parse_packet _) as [emg|e] eqn:P.
      * destruct st as [n b l [f cf tf]]. cbn [disk csv_file] in *. subst cf.
        rewrite persist_run. apply IH; [reflexivity | exact Hrest].
      * rewrite (parse_packet_raises _ _ P). apply IH; [exact Hh | exact Hrest].
Qed.

(** The [finally] clause: with the log open and its buffer empty, leaving
    closes the log and changes nothing on the disk. *)
Lemma leave_closes_log (a : args) (e : exn) (st : loop_state) (c : list byte) :
  csv_file (disk st) = Some (csv_path a, []) ->
  files (disk st) (csv_path a) = Some c ->
  csv_file (snd (leave e st)) = None
  /\ files (snd (leave e st)) (csv_path a) = Some c.
Proof.
  intros Hh Hc. unfold leave. cbn [snd step_instr]. unfold flush_handle.
  cbn [get_handle]. rewrite Hh, Hc. cbn [bind set_handle set_files files csv_file].
  split; [reflexivity |]. rewrite fs_set_same. now rewrite app_nil_r.
Qed.

(** When [recvfrom] raises anything but the timeout of the socket after
    calm events, the loop stops; [main] closes the log, which holds the
    header and the rows of all the accepted packets, and returns
    normally on an interrupt from the keyboard, lets the exception out
    otherwise. *)
Theorem shutdown_keeps_log (timeout_alias : bool) (a : args) (w : world)
        (evs rest : list event) (e : exn) :
  files w (csv_path a) = None ->
  Forall (calm timeout_alias) evs ->
  is_socket_timeout timeout_alias e = false ->
  exists w',
    main timeout_alias a None w (evs ++ RecvRaises e :: rest)
    = match e with
      | KeyboardInterrupt => Returned w'
      | _ => Raised e w'
      end
    /\ csv_file w' = None
    /\ files w' (csv_path a)
       = Some (encode_utf8 (csv_header ++ rows (accepted a evs))).
Proof.
  intros Hnew Hcalm He. destruct w as [f c t]. cbn [files] in Hnew.
  unfold main, start. cbn [files]. rewrite Hnew, open_log_run by assumption.
  set (st0 := mkLoop 0 0 None _).
  destruct (main_loop_calm timeout_alias a evs st0 (encode_utf8 csv_header))
    as (st & H1 & H2 & _); [reflexivity | apply fs_set_same | exact Hcalm |].
  assert (Hh : csv_file (disk st) = Some (csv_path a, [])).
  { apply (main_loop_calm_ready timeout_alias a evs st0 st);
      [reflexivity | exact Hcalm | exact H1]. }
  rewrite main_loop_app, H1. cbn [main_loop iteration]. unfold outer_handler.
  rewrite He. rewrite <- encode_utf8_app in H2.
  destruct (leave_closes_log a e st _ Hh H2) as [L1 L2].
  exists (snd (leave e st)). split; [| split; [exact L1 | exact L2]].
  unfold leave in *. cbn [snd] in *. destruct e; reflexivity.
Qed.

Lemma shutdown_keeps_log_witness :
  files empty_world (csv_path args_1) = None
  /\ Forall (calm true) events_1
  /\ is_socket_timeout true KeyboardInterrupt = false
  /\ exists w',
      main true args_1 None empty_world
           (events_1 ++ RecvRaises KeyboardInterrupt :: [])
      = Returned w'
      /\ csv_file w' = None.
Proof.
  assert (H1 : files empty_world (csv_path args_1) = None) by reflexivity.
  assert (H2 : Forall (calm true) events_1) by (repeat constructor).
  assert (H3 : is_socket_timeout true KeyboardInterrupt = false) by reflexivity.
  split; [exact H1 |]. split; [exact H2 |]. split; [exact H3 |].
  destruct (shutdown_keeps_log true args_1 empty_world events_1 []
              KeyboardInterrupt H1 H2 H3) as (w' & A & B & _).
  exists w'. split; [exact A | exact B].
Defined.

(** ** Long datagrams *)


(** ** The text of the rows and of the published file *)

Lemma Forall_firstn_keeps {A : Type} (P : A -> Prop) (n : nat) (l : list A) :
  Forall P l -> Forall P (firstn n l).
Proof.
  revert l. induction n as [|n IH]; intros l H; [constructor |].
  destruct H; cbn [firstn]; constructor; auto.
Qed.

Lemma Forall_skipn_keeps {A : Type} (P : A -> Prop) (n : nat) (l : list A) :
  Forall P l -> Forall P (skipn n l).
Proof.
  revert l. induction n as [|n IH]; intros l H; [exact H |].
  destruct H; cbn [skipn]; [constructor | auto].
Qed.

Lemma Forall_repeat_one {A : Type} (P : A -> Prop) (x : A) (n : nat) :
  P x -> Forall P (repeat x n).
Proof. intros H. induction n; cbn [repeat]; constructor; auto. Qed.

Lemma digit_char (n : Z) :
  is_digit (N.of_nat (Z.to_nat (48 + n mod 10))) = true.
Proof.
  pose proof (Z.mod_pos_bound n 10 ltac:(lia)) as H.
  unfold is_digit, in_range. apply andb_true_iff. split; apply N.leb_le; lia.
Qed.

Lemma digits_loop_digits (fuel : nat) :
  forall (n : Z) (acc : str),
    Forall (fun c => is_digit c = true) acc ->
    Forall (fun c => is_digit c = true)
           ((fix go (fuel : nat) (n : Z) (acc : str) {struct fuel} : str :=
               match fuel with
               | O => acc
               | S fuel' =>
                   if n =? 0 then acc
                   else go fuel' (n / 10)
                           (N.of_nat (Z.to_nat (48 + n mod 10)) :: acc)
               end) fuel n acc).
Proof.
  induction fuel as [|fuel IH]; intros n acc Hacc; [exact Hacc |].
  destruct (n =? 0); [exact Hacc |].
  apply IH. constructor; [apply digit_char | exact Hacc].
Qed.

Lemma digits_of_Z_digits (n : Z) :
  Forall (fun c => is_digit c = true) (digits_of_Z n).
Proof.
  destruct n as [|p|p].
  - repeat constructor.
  - unfold digits_of_Z. apply digits_loop_digits.
    repeat (constructor; try apply digit_char).
  - repeat constructor.
Qed.

Lemma digit_is_repr_char (c : char) : is_digit c = true -> repr_char c = true.
Proof. intros H. unfold repr_char. now rewrite H. Qed.

Lemma digits_repr_chars (l : str) :
  Forall (fun c => is_digit c = true) l -> Forall (fun c => repr_char c = true) l.
Proof. apply Forall_impl. exact digit_is_repr_char. Qed.

Lemma drop_zeros_rev_keeps (P : char -> Prop) (r : str) :
  Forall P r -> Forall P (drop_zeros_rev r).
Proof.
  induction 1 as [|c r Hc Hr IH]; cbn [drop_zeros_rev]; [constructor |].
  destruct (c =? 48)%N; [exact IH | constructor; assumption].
Qed.

Lemma short_digits_digits (m e : Z) :
  Forall (fun c => is_digit c = true) (fst (short_digits m e)).
Proof.
  unfold short_digits. destruct (shortest _ _ _ _ _) as [c e10]. cbn [fst].
  apply Forall_rev, drop_zeros_rev_keeps, Forall_rev, digits_of_Z_digits.
Qed.

Lemma repr_exponent_chars (e : Z) :
  Forall (fun c => repr_char c = true) (repr_exponent e).
Proof.
  unfold repr_exponent.
  pose proof (digits_repr_chars _ (digits_of_Z_digits (Z.abs e))) as D.
  constructor.
  - destruct (e <? 0); reflexivity.
  - destruct (Z.abs e <? 10); [constructor; [reflexivity | exact D] | exact D].
Qed.

Lemma repr_finite_chars (ds : str) (decpt : Z) :
  Forall (fun c => is_digit c = true) ds ->
  Forall (fun c => repr_char c = true) (repr_finite ds decpt).
Proof.
  intros Hd. pose proof (digits_repr_chars _ Hd) as H.
  assert (Z0 : forall n, Forall (fun c => repr_char c = true) (zeros n))
    by (intros n; apply Forall_repeat_one; reflexivity).
  unfold repr_finite.
  destruct ((decpt <=? -4) || (16 <? decpt)).
  - destruct H as [|d1 tl H1 Htl]; [constructor |].
    destruct tl as [|d2 tl].
    + constructor; [exact H1 |]. constructor; [reflexivity |].
      apply repr_exponent_chars.
    + constructor; [exact H1 |]. constructor; [reflexivity |].
      apply Forall_app. split; [exact Htl |].
      constructor; [reflexivity | apply repr_exponent_chars].
  - destruct (decpt <=? 0).
    + constructor; [reflexivity |]. constructor; [reflexivity |].
      apply Forall_app. split; [apply Z0 | exact H].
    + destruct (decpt <? Z.of_nat (List.length ds)).
      * apply Forall_app. split; [now apply Forall_firstn_keeps |].
        constructor; [reflexivity | now apply Forall_skipn_keeps].
      * apply Forall_app. split; [exact H |].
        apply Forall_app. split; [apply Z0 | repeat constructor].
Qed.

(** [repr] of a float is made of digits, signs, a point, [e] and the
    letters of [nan] and [inf]. *)
Lemma float_repr_chars (x : float) :
  Forall (fun c => repr_char c = true) (float_repr x).
Proof.
  unfold float_repr. destruct (Prim2SF x) as [s|s| |s m e].
  - destruct s; repeat constructor.
  - destruct s; repeat constructor.
  - repeat constructor.
  - pose proof (short_digits_digits (Z.pos m) e) as H.
    destruct (short_digits (Z.pos m) e) as [ds decpt]. cbn [fst] in H.
    pose proof (repr_finite_chars ds decpt H) as R.
    destruct s; cbn [minus_if]; [constructor; [reflexivity | exact R] | exact R].
Qed.

Lemma repr_char_plain (c : char) :
  repr_char c = true -> needs_quoting c = false /\ printable c = true.
Proof.
  unfold repr_char, is_digit, needs_quoting, printable, in_range. intros H.
  repeat match type of H with
         | (_ || _) = true => apply orb_true_iff in H; destruct H as [H | H]
         end;
    try (apply andb_true_iff in H; destruct H as [H1 H2];
         apply N.leb_le in H1; apply N.leb_le in H2);
    try (apply N.eqb_eq in H; subst c; split; reflexivity).
  split.
  - repeat match goal with
           | |- context [(?x =? ?y)%N] => destruct (N.eqb_spec x y); try lia
           end; reflexivity.
  - apply andb_true_iff. split; apply N.leb_le; lia.
Qed.

Lemma py_bool_str_plain (b : bool) :
  Forall (fun c => needs_quoting c = false /\ printable c = true) (py_bool_str b).
Proof. destruct b; repeat constructor. Qed.

Lemma csv_fields_plain (recv_ts : float) (emg : sample) :
  Forall (Forall (fun c => needs_quoting c = false /\ printable c = true))
         (csv_fields recv_ts emg).
Proof.
  assert (F : forall x, Forall (fun c => needs_quoting c = false /\ printable c = true)
                               (float_repr x)).
  { intros x. eapply Forall_impl; [| apply float_repr_chars].
    exact repr_char_plain. }
  unfold csv_fields. repeat constructor; try apply F. apply py_bool_str_plain.
Qed.

Lemma csv_split_plain (fld : str) :
  Forall (fun c => needs_quoting c = false /\ printable c = true) fld ->
  csv_split fld = [fld].
Proof.
  induction 1 as [|c fld [Hc _] _ IH]; [reflexivity |].
  cbn [csv_split]. unfold needs_quoting in Hc.
  destruct (c =? 44)%N; [discriminate |]. now rewrite IH.
Qed.

Lemma csv_split_comma (fld rest : str) :
  Forall (fun c => needs_quoting c = false /\ printable c = true) fld ->
  csv_split (fld ++ comma ++ rest) = fld :: csv_split rest.
Proof.
  induction 1 as [|c fld [Hc _] _ IH]; [reflexivity |].
  cbn [app csv_split]. unfold needs_quoting in Hc.
  destruct (c =? 44)%N; [discriminate |]. cbn [app] in IH. now rewrite IH.
Qed.

(** No value of a row ever needs quoting: a row is its five values
    between commas and a line end, and splitting the line at the commas
    gives the five values back. *)
Theorem csv_row_splits (recv_ts : float) (emg : sample) :
  exists line,
    csv_row recv_ts emg = line ++ crlf
    /\ csv_split line = csv_fields recv_ts emg
    /\ Forall (fun c => c <> 13%N /\ c <> 10%N /\ c <> 34%N) line.
Proof.
  pose proof (csv_fields_plain recv_ts emg) as P. unfold csv_fields in *.
  inversion P as [|? ? P1 P']; subst. inversion P' as [|? ? P2 P'']; subst.
  inversion P'' as [|? ? P3 P3']; subst. inversion P3' as [|? ? P4 P4']; subst.
  inversion P4' as [|? ? P5 _]; subst. clear P P' P'' P3' P4'.
  exists (float_repr recv_ts ++ comma ++ float_repr (ts emg) ++ comma
          ++ float_repr (aTA emg) ++ comma ++ float_repr (aGAS emg) ++ comma
          ++ py_bool_str (valid emg)).
  split; [| split].
  - unfold csv_row. now rewrite <- !app_assoc.
  - rewrite !csv_split_comma by assumption. now rewrite csv_split_plain.
  - assert (Q : forall l, Forall (fun c => needs_quoting c = false
                                           /\ printable c = true) l ->
                          Forall (fun c => c <> 13%N /\ c <> 10%N /\ c <> 34%N) l).
    { apply Forall_impl. intros c [Hq _].
      repeat split; intros ->; discriminate Hq. }
    assert (C : Forall (fun c => c <> 13%N /\ c <> 10%N /\ c <> 34%N) comma)
      by (repeat constructor; discriminate).
    repeat (apply Forall_app; split); auto.
Qed.

Lemma float_repr_printable (x : float) :
  Forall (fun c => printable c = true) (float_repr x).
Proof.
  eapply Forall_impl; [| apply float_repr_chars].
  intros c H. now apply repr_char_plain.
Qed.

Lemma json_float_printable (x : float) :
  Forall (fun c => printable c = true) (json_float x).
Proof.
  pose proof (float_repr_printable x) as H. unfold json_float.
  destruct (Prim2SF x) as [s|s| |s m e]; try exact H.
  - destruct s; repeat constructor.
  - repeat constructor.
Qed.

Lemma encode_utf8_ascii (s : str) :
  Forall (fun c => (c < 128)%N) s -> encode_utf8 s = map byte_of_N s.
Proof.
  induction 1 as [|c s Hc _ IH]; [reflexivity |].
  unfold encode_utf8 in *. cbn [flat_map map]. rewrite IH.
  unfold utf8_encode_char. apply N.ltb_lt in Hc. now rewrite Hc.
Qed.

(** The published file is one line of printable ASCII, a byte for each
    character, ended by a line feed. *)
Theorem published_text_one_line (data : sample) :
  exists body,
    json_text data = body ++ newline
    /\ Forall (fun c => printable c = true) body
    /\ encode_utf8 (json_text data) = map byte_of_N (json_text data).
Proof.
  assert (B : Forall (fun c => printable c = true) (List.concat (json_chunks data))).
  { apply Forall_concat. unfold json_chunks.
    repeat (constructor; [first [ apply json_float_printable
                                | destruct (valid data); repeat constructor
                                | repeat constructor ] |]).
    constructor. }
  exists (List.concat (json_chunks data)). split; [reflexivity |].
  split; [exact B |]. apply encode_utf8_ascii. unfold json_text.
  apply Forall_app. split.
  - eapply Forall_impl; [| exact B]. intros c H. unfold printable, in_range in H.
    apply andb_true_iff in H. destruct H as [_ H]. apply N.leb_le in H. lia.
  - repeat constructor.
Qed.
(** ** The console *)


Lemma malformed_turn (timeout_alias : bool) (a : args) (d : display)
      (st : loop_state) (con : console) (tk : tick) :
  brings_malformed a tk ->
  turn timeout_alias a d st con tk
  = (Running (mkLoop (ok st) (bad st + 1) (last_sample st) (disk st)), con).
Proof.
  intros (datagram & recv_ts & flt & e & R & P). unfold turn.
  now rewrite R, P, (parse_packet_raises _ _ P).
Qed.

(** Rejected packets are silent.  The [continue] of line 153 skips the
    status as well: while malformed packets follow one another, [bad]
    counts them and nothing at all is printed, however long it lasts. *)
Theorem malformed_flood_is_silent (timeout_alias : bool) (a : args)
        (d : display) (tks : list tick) :
  Forall (brings_malformed a) tks ->
  forall st con,
    watch timeout_alias a d tks st con
    = (Running (mkLoop (ok st) (bad st + Z.of_nat (List.length tks))
                       (last_sample st) (disk st)),
       con).
Proof.
  induction 1 as [|tk tks Htk _ IH]; intros st con; cbn [watch List.length].
  - rewrite Z.add_0_r. now destruct st.
  - rewrite (malformed_turn timeout_alias a d st con tk Htk), IH.
    cbn [ok bad last_sample disk]. do 3 f_equal. lia.
Qed.

Lemma malformed_flood_is_silent_witness :
  Forall (brings_malformed args_1)
         [mkTick (Packet packet_bad 1.5 None) [] 2.5 1000;
          mkTick (Packet packet_bad 3.5 None) [] 4.5 2000]
  /\ snd (watch true args_1 default_display
            [mkTick (Packet packet_bad 1.5 None) [] 2.5 1000;
             mkTick (Packet packet_bad 3.5 None) [] 4.5 2000]
            state_1 (console_start default_display args_1 0))
     = console_start default_display args_1 0.
Proof.
  assert (M : forall x y z, brings_malformed args_1
                              (mkTick (Packet packet_bad x None) [] y z)).
  { intros x y z. exists packet_bad, x, None, JSONDecodeError.
    split; [reflexivity | vm_compute; reflexivity]. }
  assert (H : Forall (brings_malformed args_1)
                     [mkTick (Packet packet_bad 1.5 None) [] 2.5 1000;
                      mkTick (Packet packet_bad 3.5 None) [] 4.5 2000])
    by (repeat constructor; apply M).
  split; [exact H |].
  now rewrite (malformed_flood_is_silent true args_1 default_display _ H).
Defined.

(** The live line is paced and comes first: a turn appends at most a
    live line and then at most a status line; the live line is there
    exactly when the packet was accepted and [print_every] has elapsed,
    and then [last_live_print] becomes [now]; in every other turn
    [last_live_print] stays. *)
Theorem live_line_paced (timeout_alias : bool) (a : args) (d : display)
        (st : loop_state) (con : console) (tk : tick) :
  let con' := snd (turn timeout_alias a d st con tk) in
  if live_due a d st con tk then
    last_live_print con' = now tk
    /\ exists emg rest,
        last_sample (state_of (fst (turn timeout_alias a d st con tk))) = Some emg
        /\ printed con' = printed con ++ live_line emg (sender tk) :: rest
        /\ (List.length rest <= 1)%nat
  else
    last_live_print con' = last_live_print con
    /\ exists rest,
        printed con' = printed con ++ rest /\ (List.length rest <= 1)%nat.
Proof.
  cbv zeta.
  assert (S : forall c s x,
             last_live_print (status_print d c s x) = last_live_print c
             /\ exists rest, printed (status_print d c s x) = printed c ++ rest
                             /\ (List.length rest <= 1)%nat).
  { intros c s x. unfold status_print.
    destruct (status_every d <=? x - last_status_print c)%float;
      cbn [last_live_print printed]; split; try reflexivity.
    - eexists. split; [reflexivity | cbn; lia].
    - exists []. split; [now rewrite app_nil_r | cbn; lia]. }
  assert (N : last_live_print con = last_live_print con
              /\ exists rest, printed con = printed con ++ rest
                              /\ (List.length rest <= 1)%nat).
  { split; [reflexivity |]. exists []. split; [now rewrite app_nil_r | cbn; lia]. }
  unfold live_due, turn.
  destruct (received tk) as [e | datagram recv_ts flt].
  - destruct (is_socket_timeout timeout_alias e); cbn [snd]; [apply S | exact N].
  - destruct (parse_packet _) as [emg|e].
    + destruct (run flt _ _) as [w' [e|]]; cbn [snd fst].
      * destruct (is_socket_timeout timeout_alias e); cbn [snd]; [apply S | exact N].
      * destruct (S (live_print d con emg (sender tk) (now tk))
                    (mkLoop (ok st + 1) (bad st) (Some emg) w') (t tk))
          as (S1 & rest & S2 & S3).
        rewrite S1, S2. unfold live_print.
        destruct (print_every d <=? now tk - last_live_print con)%float;
          cbn [last_live_print printed state_of last_sample].
        -- split; [reflexivity |]. exists emg, rest.
           split; [reflexivity |]. split; [| exact S3].
           now rewrite <- app_assoc.
        -- split; [reflexivity |]. exists rest. auto.
    + destruct (is_Exception e); cbn [snd]; [exact N |].
      destruct (is_socket_timeout timeout_alias e); cbn [snd]; [apply S | exact N].
Qed.
